(** * queryset_iterator: batched iteration over a queryset

    A shallow embedding of [queryset_iterator/core.py].  The module holds two
    generator functions, [queryset_iterator] and [queryset_iterator_qs].  Both
    draw primary keys from the queryset's key iterator into [pk_buffer] until
    [batchsize] keys are held or the iterator is exhausted, and process the
    buffer in the [finally] clause of the [try] statement that wraps the
    drawing loop.

    The source uses parameter annotations, so it is Python 3 code; the
    embedding follows Python 3 where the two languages differ (ordering
    comparisons between unrelated types raise [TypeError]).

    A generator is modelled as the data of its suspended frame; [resume] is
    one [next()] call on it.  Everything the body does to its collaborators
    (the key iterator, [filter], [gc.collect]) is logged as an [event]. *)

From Stdlib Require Import ZArith QArith Qround Lia.
From stdpp Require Import base list strings.

Local Open Scope Z_scope.

(** ** Python values reaching the [batchsize] parameter *)

Inductive value : Type :=
  | Int (z : Z)                 (* an [int]; [True]/[False] are the ints 1/0 *)
  | Float (q : Q)               (* a finite [float], by its exact value *)
  | NaN                         (* [float('nan')]: every [<] is [False] *)
  | Infinity (negative : bool)  (* [float('inf')] and [float('-inf')] *)
  | Unordered (type_name : string).
                                (* str, list, dict, set, tuple, object(): no
                                   ordering against [int] *)

Definition Qltb (x y : Q) : bool :=
  Qnum x * QDen y <? Qnum y * QDen x.

Definition unorderable (l r : string) : string :=
  ("'<' not supported between instances of '" +:+ l +:+ "' and '" +:+ r +:+ "'")%string.

Definition GC_COLLECT_BATCH : Z := 1.

Definition GC_COLLECT_END : Z := 2.

Section Model.
Context {key record err : Type}.

(** ** Exceptions *)

Inductive exn : Type :=
  | ValueError (msg : string)
  | TypeError (msg : string)
  | AttributeError (attr : string)
  | SourceError (e : err).      (* whatever the queryset itself raises *)

(** [v < n] and [n < v] for an [int] n. *)
Definition lt_int (v : value) (n : Z) : exn + bool :=
  match v with
  | Int z => inr (z <? n)
  | Float q => inr (Qltb q (inject_Z n))
  | NaN => inr false
  | Infinity negative => inr negative
  | Unordered t => inl (TypeError (unorderable t "int"))
  end.

Definition int_lt (n : Z) (v : value) : exn + bool :=
  match v with
  | Int z => inr (n <? z)
  | Float q => inr (Qltb (inject_Z n) q)
  | NaN => inr false
  | Infinity negative => inr (negb negative)
  | Unordered t => inl (TypeError (unorderable "int" t))
  end.

Definition isinstance_int (v : value) : bool :=
  match v with Int _ => true | _ => false end.

(** Truth value of a list: [if pk_buffer]. *)
Definition truthy {A} (l : list A) : bool :=
  match l with [] => false | _ :: _ => true end.

(** ** The queryset, as the functions use it *)

(** The two spellings of the iterator protocol that the module uses:
    [iterator.next()] (line 48) and [iterator.__next__()] (line 106). *)
Inductive method : Type := next | dunder_next.

Definition method_name (m : method) : string :=
  match m with next => "next" | dunder_next => "__next__" end.

(** [queryset.values_list('pk', flat=True).distinct().iterator()]: the keys
    still to come, how the stream ends ([None]: [StopIteration]; [Some e]:
    the source raises [e]), and which method names the object has. *)
Record key_iterator : Type := KeyIterator {
  has_next : bool;
  has_dunder_next : bool;
  pending : list key;
  ending : option err
}.

Definition answers (m : method) (it : key_iterator) : bool :=
  match m with next => has_next it | dunder_next => has_dunder_next it end.

(** What iterating [queryset.filter(pk__in=pk_buffer).iterator()] gives:
    the rows it yields, then normal exhaustion or an error. *)
Record fetched : Type := Fetched {
  rows : list record;
  failure : option err
}.

Record queryset : Type := Queryset {
  pk_iterator : key_iterator;
  filter_pk_in : list key -> fetched
}.

(** ** Events, yielded items, outcomes *)

(** A yielded element: a row, or the unevaluated [filter(pk__in=...)]
    queryset of a buffer. *)
Inductive item : Type :=
  | Row (r : record)
  | Batch (pk_in : list key).

Inductive event : Type :=
  | EvOpen                          (* values_list(...).distinct().iterator() *)
  | EvDraw                          (* one call of the iterator's next method *)
  | EvFilter (pk_in : list key)     (* queryset.filter(pk__in=pk_in) *)
  | EvIterator (pk_in : list key)   (* .iterator() on that filter *)
  | EvCollect                       (* gc.collect() *)
  | EvYield (x : item).             (* an element handed to the consumer *)

(** How the [try] statement is left once its [finally] clause is over. *)
Inductive completion : Type :=
  | Normal                          (* the buffer is full: loop again *)
  | Break                           (* [except StopIteration: break] *)
  | Reraise (e : exn).              (* any other exception *)

Inductive outcome : Type :=
  | Yielded (x : item)
  | Stopped                         (* the generator returned *)
  | Raised (e : exn).

(** Suspended frames of [queryset_iterator]. *)
Inductive frame_qi : Type :=
  | QI_start
  | QI_line58 (iterator : key_iterator) (pk_buffer : list key)
              (results : list record) (fails : option err) (c : completion)
  | QI_line62 (iterator : key_iterator) (pk_buffer : list key) (c : completion)
  | QI_done.

(** Suspended frames of [queryset_iterator_qs]. *)
Inductive frame_qs : Type :=
  | QS_start
  | QS_line113 (iterator : key_iterator) (pk_buffer : list key) (c : completion)
  | QS_done.

Inductive generator : Type :=
  | QI (qs : queryset) (batchsize : value) (gc_collect : Z)
       (iterator_return : bool) (f : frame_qi)
  | QS (qs : queryset) (batchsize : value) (gc_collect : Z) (f : frame_qs).

(** Calling a generator function runs none of its body. *)
Definition queryset_iterator (qs : queryset) (batchsize : value)
    (gc_collect : Z) (iterator_return : bool) : generator :=
  QI qs batchsize gc_collect iterator_return QI_start.

Definition queryset_iterator_qs (qs : queryset) (batchsize : value)
    (gc_collect : Z) : generator :=
  QS qs batchsize gc_collect QS_start.

(** Whether the body of the generator has begun to run. *)
Definition started (g : generator) : bool :=
  match g with
  | QI _ _ _ _ QI_start | QS _ _ _ QS_start => false
  | _ => true
  end.

(** One [next()] on a generator: the events of the step, its outcome and
    the generator afterwards.  [None] only when the fuel of the
    [while True] loop runs out. *)
Definition result : Type := option (list event * outcome * generator).

Definition prepend (evs : list event) (r : result) : result :=
  match r with
  | Some (evs', o, g) => Some (evs ++ evs', o, g)
  | None => None
  end.

(** ** Pieces of the loop body *)

Section Body.
Variable batchsize : value.
Variable gc_collect : Z.
Variable done : generator.

(** Lines 47-48 / 105-106: [while len(pk_buffer) < batchsize:
    pk_buffer.append(iterator.<m>())], inside the [try].  Returns the
    events, the keys left in the iterator, the buffer, and how the [try]
    block ended. *)
Fixpoint fill (m : method) (it : key_iterator) (remaining : list key)
    (pk_buffer : list key) {struct remaining}
    : list event * list key * list key * completion :=
  match int_lt (Z.of_nat (length pk_buffer)) batchsize with
  | inl e => ([], remaining, pk_buffer, Reraise e)
  | inr false => ([], remaining, pk_buffer, Normal)
  | inr true =>
      if answers m it then
        match remaining with
        | k :: remaining' =>
            let '(evs, rest, buf, c) := fill m it remaining' (pk_buffer ++ [k]) in
            (EvDraw :: evs, rest, buf, c)
        | [] =>
            ([EvDraw], [], pk_buffer,
             match ending it with
             | None => Break
             | Some e => Reraise (SourceError e)
             end)
        end
      else ([], remaining, pk_buffer, Reraise (AttributeError (method_name m)))
  end.

Definition rest_of (it : key_iterator) (remaining : list key) : key_iterator :=
  KeyIterator (has_next it) (has_dunder_next it) remaining (ending it).

(** Leaving the [try] statement: next turn of [while True], or [break]
    followed by lines 69-71 / 120-122, or the pending exception. *)
Definition leave (again : key_iterator -> result)
    (iterator : key_iterator) (c : completion) : result :=
  match c with
  | Normal => again iterator
  | Break =>
      Some (if gc_collect =? GC_COLLECT_END then [EvCollect] else [],
            Stopped, done)
  | Reraise e => Some ([], Raised e, done)
  end.

(** Lines 64-67 / 115-118, the end of the [finally] clause. *)
Definition collect_batch (again : key_iterator -> result)
    (iterator : key_iterator) (pk_buffer : list key) (c : completion)
    : result :=
  prepend
    (if (gc_collect =? GC_COLLECT_BATCH) && truthy pk_buffer
     then [EvCollect] else [])
    (leave again iterator c).
End Body.

(** ** [queryset_iterator] *)

Section QuerysetIterator.
Variable qs : queryset.
Variable batchsize : value.
Variable gc_collect : Z.
Variable iterator_return : bool.

Let at_frame (f : frame_qi) : generator :=
  QI qs batchsize gc_collect iterator_return f.

(** Lines 57-58: [for result in ...: yield result], entered or resumed
    with [results] still to come. *)
Definition for_result (again : key_iterator -> result)
    (iterator : key_iterator) (pk_buffer : list key)
    (results : list record) (fails : option err) (c : completion)
    : result :=
  match results with
  | r :: results' =>
      Some ([], Yielded (Row r),
            at_frame (QI_line58 iterator pk_buffer results' fails c))
  | [] =>
      match fails with
      | Some e => Some ([], Raised (SourceError e), at_frame QI_done)
      | None =>
          collect_batch gc_collect (at_frame QI_done) again
            iterator pk_buffer c
      end
  end.

(** Lines 52-67: the [finally] clause, up to the next suspension. *)
Definition finally_qi (again : key_iterator -> result)
    (iterator : key_iterator) (pk_buffer : list key) (c : completion)
    : result :=
  if iterator_return then
    let f := filter_pk_in qs pk_buffer in
    prepend [EvFilter pk_buffer; EvIterator pk_buffer]
      (for_result again iterator pk_buffer (rows f) (failure f) c)
  else
    Some ([EvFilter pk_buffer], Yielded (Batch pk_buffer),
          at_frame (QI_line62 iterator pk_buffer c)).

(** Lines 42-67: a turn of the [while True] loop; [fuel] bounds the turns
    taken before the next suspension. *)
Fixpoint loop_qi (fuel : nat) (iterator : key_iterator) : result :=
  match fuel with
  | O => None
  | S fuel' =>
      let '(evs, remaining, pk_buffer, c) :=
        fill batchsize next iterator (pending iterator) [] in
      prepend evs
        (finally_qi (loop_qi fuel') (rest_of iterator remaining) pk_buffer c)
  end.

Definition while_true_qi (iterator : key_iterator) : result :=
  loop_qi (S (length (pending iterator))) iterator.

Definition resume_qi (f : frame_qi) : result :=
  match f with
  | QI_start =>
      match lt_int batchsize 1 with
      | inl e => Some ([], Raised e, at_frame QI_done)
      | inr true =>
          Some ([], Raised (ValueError "Batch size must be above 0"),
                at_frame QI_done)
      | inr false =>
          prepend [EvOpen] (while_true_qi (pk_iterator qs))
      end
  | QI_line58 iterator pk_buffer results fails c =>
      for_result (while_true_qi) iterator pk_buffer results fails c
  | QI_line62 iterator pk_buffer c =>
      collect_batch gc_collect (at_frame QI_done) while_true_qi
        iterator pk_buffer c
  | QI_done => Some ([], Stopped, at_frame QI_done)
  end.
End QuerysetIterator.

(** ** [queryset_iterator_qs] *)

Section QuerysetIteratorQs.
Variable qs : queryset.
Variable batchsize : value.
Variable gc_collect : Z.

Let at_frame (f : frame_qs) : generator := QS qs batchsize gc_collect f.

(** Lines 110-113: the [finally] clause, up to its [yield]. *)
Definition finally_qs (iterator : key_iterator) (pk_buffer : list key)
    (c : completion) : result :=
  Some ([EvFilter pk_buffer], Yielded (Batch pk_buffer),
        at_frame (QS_line113 iterator pk_buffer c)).

(** Lines 100-113: a turn of the [while True] loop.  Every turn suspends at
    line 113, so no fuel is needed. *)
Definition loop_qs (iterator : key_iterator) : result :=
  let '(evs, remaining, pk_buffer, c) :=
    fill batchsize dunder_next iterator (pending iterator) [] in
  prepend evs (finally_qs (rest_of iterator remaining) pk_buffer c).

Definition resume_qs (f : frame_qs) : result :=
  match f with
  | QS_start =>
      match lt_int batchsize 1 with
      | inl e => Some ([], Raised e, at_frame QS_done)
      | inr true =>
          Some ([], Raised (ValueError "Batch size must be above 0"),
                at_frame QS_done)
      | inr false =>
          if isinstance_int batchsize then
            prepend [EvOpen] (loop_qs (pk_iterator qs))
          else
            Some ([], Raised (TypeError "batchsize must be an integer"),
                  at_frame QS_done)
      end
  | QS_line113 iterator pk_buffer c =>
      collect_batch gc_collect (at_frame QS_done) loop_qs
        iterator pk_buffer c
  | QS_done => Some ([], Stopped, at_frame QS_done)
  end.
End QuerysetIteratorQs.

Definition resume (g : generator) : result :=
  match g with
  | QI qs batchsize gc_collect iterator_return f =>
      resume_qi qs batchsize gc_collect iterator_return f
  | QS qs batchsize gc_collect f =>
      resume_qs qs batchsize gc_collect f
  end.

(** ** A consumer that demands every element: [list(generator)] *)

Inductive final : Type :=
  | Completed
  | Failed (e : exn).

(** [pass r tr fin]: starting from the result [r] of a [next()] call and
    demanding elements until the generator stops or raises, the events
    (yields included) are [tr] and the iteration ends as [fin]. *)
Inductive pass : result -> list event -> final -> Prop :=
  | pass_stop evs g :
      pass (Some (evs, Stopped, g)) evs Completed
  | pass_raise evs e g :
      pass (Some (evs, Raised e, g)) evs (Failed e)
  | pass_yield evs x g tr fin :
      pass (resume g) tr fin ->
      pass (Some (evs, Yielded x, g)) (evs ++ EvYield x :: tr) fin.

Definition full_pass (g : generator) (tr : list event) (fin : final) : Prop :=
  pass (resume g) tr fin.

(** The same consumer as a function, for evaluation. *)
Fixpoint drive (fuel : nat) (g : generator) : option (list event * final) :=
  match fuel with
  | O => None
  | S fuel' =>
      match resume g with
      | None => None
      | Some (evs, Stopped, _) => Some (evs, Completed)
      | Some (evs, Raised e, _) => Some (evs, Failed e)
      | Some (evs, Yielded x, g') =>
          match drive fuel' g' with
          | Some (tr, fin) => Some (evs ++ EvYield x :: tr, fin)
          | None => None
          end
      end
  end.

(** ** Reading a trace *)

Definition filter_calls (tr : list event) : list (list key) :=
  omap (fun ev => match ev with EvFilter b => Some b | _ => None end) tr.

Definition rows_yielded (tr : list event) : list record :=
  omap (fun ev => match ev with EvYield (Row r) => Some r | _ => None end) tr.

Definition batches_yielded (tr : list event) : list (list key) :=
  omap (fun ev => match ev with EvYield (Batch b) => Some b | _ => None end) tr.

Definition is_collect (ev : event) : bool :=
  match ev with EvCollect => true | _ => false end.

Definition is_draw (ev : event) : bool :=
  match ev with EvDraw => true | _ => false end.

Definition collects (tr : list event) : nat :=
  length (List.filter is_collect tr).

Definition draws (tr : list event) : nat :=
  length (List.filter is_draw tr).
End Model.


(** ** The three ways the module is entered *)

Inductive entry : Type :=
  | Records       (* queryset_iterator(..., iterator_return=True) *)
  | Batches       (* queryset_iterator(..., iterator_return=False) *)
  | BatchesQs.    (* queryset_iterator_qs(...) *)

Definition method_of (v : entry) : method :=
  match v with BatchesQs => dunder_next | _ => next end.

Section Reference.
Context {key record err : Type}.

Definition call (v : entry) (qs : queryset) (batchsize : value)
    (gc_collect : Z) : generator (key:=key) (record:=record) (err:=err) :=
  match v with
  | Records => queryset_iterator qs batchsize gc_collect true
  | Batches => queryset_iterator qs batchsize gc_collect false
  | BatchesQs => queryset_iterator_qs qs batchsize gc_collect
  end.

(** The loop of each entry, at the top of a turn of [while True]. *)
Definition enter (v : entry) (qs : queryset) (batchsize : value)
    (gc_collect : Z) (fuel : nat) (iterator : key_iterator)
    : result (key:=key) (record:=record) (err:=err) :=
  match v with
  | Records => loop_qi qs batchsize gc_collect true fuel iterator
  | Batches => loop_qi qs batchsize gc_collect false fuel iterator
  | BatchesQs => loop_qs qs batchsize gc_collect iterator
  end.

(** The [finally] clause of each entry. *)
Definition finally_of (v : entry) (qs : queryset) (batchsize : value)
    (gc_collect : Z) (again : key_iterator -> result)
    (iterator : key_iterator) (pk_buffer : list key) (c : completion)
    : result (key:=key) (record:=record) (err:=err) :=
  match v with
  | Records => finally_qi qs batchsize gc_collect true again iterator pk_buffer c
  | Batches => finally_qi qs batchsize gc_collect false again iterator pk_buffer c
  | BatchesQs => finally_qs qs batchsize gc_collect iterator pk_buffer c
  end.

(** How the [try] block ends when the iterator has no key left. *)
Definition ended (it : key_iterator (key:=key)) : completion (err:=err) :=
  match ending it with
  | None => Break
  | Some e => Reraise (SourceError e)
  end.

(** ** A closed description of a full pass

    Used to state what a pass does; the theorems below prove that the
    generators follow it. *)

(** Buffer number [i] for batch size [b]: [keys[i*b : (i+1)*b]]. *)
Definition buffer_at (b : nat) (keys : list key) (i : nat) : list key :=
  take b (drop (i * b) keys).

(** The buffers of a pass, the last one included. *)
Definition buffers (b : nat) (keys : list key) : list (list key) :=
  buffer_at b keys <$> seq 0 (S (length keys / b)).

(** Draws made to obtain a buffer: one per key, and one more, which finds
    the iterator at its end, when the buffer stays short. *)
Definition draws_for (b : nat) (buf : list key) : list (event (key:=key) (record:=record)) :=
  repeat EvDraw (length buf + (if (length buf <? b)%nat then 1 else 0)).

(** The yield step of the [finally] clause. *)
Definition yield_step (v : entry) (qs : queryset (err:=err)) (buf : list key)
    : list (event (key:=key) (record:=record)) :=
  match v with
  | Records =>
      EvIterator buf :: ((fun r => EvYield (Row r)) <$> rows (filter_pk_in qs buf))
  | _ => [EvYield (Batch buf)]
  end.

Definition fetch_failure (v : entry) (qs : queryset (record:=record)) (buf : list key)
    : option err :=
  match v with
  | Records => failure (filter_pk_in qs buf)
  | _ => None
  end.

Definition collect_after (gc_collect : Z) (buf : list key)
    : list (event (key:=key) (record:=record)) :=
  if (gc_collect =? GC_COLLECT_BATCH) && truthy buf then [EvCollect] else [].

(** What a turn of the loop does for one buffer. *)
Definition segment (v : entry) (qs : queryset (err:=err)) (gc_collect : Z) (b : nat)
    (buf : list key) : list event :=
  draws_for b buf ++ EvFilter buf :: yield_step v qs buf
    ++ collect_after gc_collect buf.

(** A segment up to the end of its yield step: what a turn does before
    line 64 / 115, and all it does when the fetch raises. *)
Definition before_collect (v : entry) (qs : queryset (err:=err)) (b : nat)
    (buf : list key) : list event :=
  draws_for b buf ++ EvFilter buf :: yield_step v qs buf.

(** The buffers in order, up to the first fetch that raises. *)
Fixpoint play (v : entry) (qs : queryset) (gc_collect : Z) (b : nat)
    (bufs : list (list key)) (closing : list event * final)
    : list event * final (err:=err) :=
  match bufs with
  | [] => closing
  | buf :: bufs' =>
      match fetch_failure v qs buf with
      | Some e => (before_collect v qs b buf, Failed (SourceError e))
      | None =>
          let '(tr, fin) := play v qs gc_collect b bufs' closing in
          (segment v qs gc_collect b buf ++ tr, fin)
      end
  end.

(** After the last buffer: lines 69-71 / 120-122, or the error of the key
    enumeration. *)
Definition closing (gc_collect : Z) (ending : option err)
    : list (event (key:=key) (record:=record)) * final :=
  match ending with
  | None => (if gc_collect =? GC_COLLECT_END then [EvCollect] else [], Completed)
  | Some e => ([], Failed (SourceError e))
  end.

Definition played (v : entry) (qs : queryset) (gc_collect : Z) (b : nat)
    (it : key_iterator) : list event * final :=
  play v qs gc_collect b (buffers b (pending it)) (closing gc_collect (ending it)).

(** What the rest of the pass is, seen from the [finally] clause that the
    [try] statement leaves as [c], with continuation [k]. *)
Definition continues (gc_collect : Z)
    (k : key_iterator (key:=key) (err:=err) -> result (record:=record))
    (it : key_iterator) (c : completion)
    (tr : list event) (fin : final) : Prop :=
  match c with
  | Normal => pass (k it) tr fin
  | Break => (tr, fin) = closing gc_collect None
  | Reraise e => (tr, fin) = ([], Failed e)
  end.

(** ** The source as a table of records *)

(** [serves pk table qs]: the queryset stands for the records of [table],
    keyed by [pk], and does not change or fail during the pass. *)
Definition serves `{EqDecision key} (pk : record -> key) (table : list record)
    (qs : queryset (err:=err)) : Prop :=
  NoDup (pending (pk_iterator qs)) /\
  (forall k, k ∈ pending (pk_iterator qs) <-> k ∈ pk <$> table) /\
  ending (pk_iterator qs) = None /\
  forall buf,
    failure (filter_pk_in qs buf) = None /\
    rows (filter_pk_in qs buf) ≡ₚ filter (fun r => pk r ∈ buf) table.

(** A source whose key enumeration and fetches never raise. *)
Definition reliable (qs : queryset (key:=key) (record:=record) (err:=err)) : Prop :=
  ending (pk_iterator qs) = None /\
  forall buf, failure (filter_pk_in qs buf) = None.

(** The reading of "an error surfaces at once": the pass ends with that
    error and the draw that raised it is the last thing that happened. *)
Definition surfaces_at_once (g : generator (key:=key) (record:=record)) (e : err) : Prop :=
  exists tr, full_pass g (tr ++ [EvDraw]) (Failed (SourceError e)).
End Reference.

(** ** Concrete querysets

    Small sources built by hand over a table of rows, on which the
    generators are evaluated.  They embed no code of the repository. *)

Module Mock.
Record row : Type := { row_pk : Z; pk_info : string }.

Definition row_of (k : Z) (info : string) : row :=
  {| row_pk := k; pk_info := info |}.

Definition table (n : nat) : list row :=
  take n [row_of 1 "1"; row_of 2 "2"; row_of 3 "3"; row_of 4 "4"].

(** A fetch from a table [rs] that does not change: the rows whose pk is
    in [pk__in], in table order. *)
Definition filter_mock (rs : list row) (pk_in : list Z) : fetched (err:=string) :=
  Fetched (filter (fun r => row_pk r ∈ pk_in) rs) None.

(** The queryset over the table [rs]: its key iterator gives the pks in
    table order and has the method names told. *)
Definition queryset_mock (has_next has_dunder_next : bool) (rs : list row)
    : queryset :=
  Queryset (KeyIterator has_next has_dunder_next (row_pk <$> rs) None)
           (filter_mock rs).

(** A key iterator with both spellings, one with [next] only, and a Python 3
    iterator, which has [__next__] only. *)
Definition both (rs : list row) : queryset := queryset_mock true true rs.

Definition legacy (rs : list row) : queryset := queryset_mock true false rs.

Definition python3 (rs : list row) : queryset := queryset_mock false true rs.

(** Key enumeration gives key 1 and then raises. *)
Definition keys_break : queryset :=
  Queryset (KeyIterator true true [1] (Some "boom"%string))
           (filter_mock (table 1)).

(** The fetch of any buffer holding key 3 yields nothing and raises. *)
Definition fetch_breaks : queryset :=
  Queryset (KeyIterator true true [1; 2; 3; 4] None)
           (fun pk_in =>
              if bool_decide (3 ∈ pk_in) then Fetched [] (Some "lost"%string)
              else filter_mock (table 4) pk_in).
End Mock.

(** ** Vocabulary for properties of single steps and of prefixes *)

Section Vocabulary.
Context {key record err : Type}.

Definition gc_collect_of
    (g : generator (key:=key) (record:=record) (err:=err)) : Z :=
  match g with
  | QI _ _ gc_collect _ _ => gc_collect
  | QS _ _ gc_collect _ => gc_collect
  end.

(** A generator that yields batches: [queryset_iterator_qs], or
    [queryset_iterator] with [iterator_return=False] outside its
    [for result in ...] loop. *)
Definition yields_batches
    (g : generator (key:=key) (record:=record) (err:=err)) : bool :=
  match g with
  | QI _ _ _ iterator_return (QI_line58 _ _ _ _ _) => false
  | QI _ _ _ iterator_return _ => negb iterator_return
  | QS _ _ _ _ => true
  end.

(** Whether the generator has returned or raised. *)
Definition finished
    (g : generator (key:=key) (record:=record) (err:=err)) : bool :=
  match g with
  | QI _ _ _ _ QI_done | QS _ _ _ QS_done => true
  | _ => false
  end.

(** A generator of [queryset_iterator] called with [float('nan')] that is
    at its start or suspended in a turn of [while True] whose [try]
    statement ended normally with no fetch error pending, over a queryset
    whose fetch of the empty buffer does not raise when it is iterated. *)
Definition idling
    (g : generator (key:=key) (record:=record) (err:=err)) : Prop :=
  match g with
  | QI qs NaN _ iterator_return f =>
      (iterator_return = false \/ failure (filter_pk_in qs []) = None) /\
      match f with
      | QI_start | QI_line58 _ _ _ None Normal | QI_line62 _ _ Normal => True
      | _ => False
      end
  | _ => False
  end.

(** [P] holds of the events, the outcome and the next generator of a step
    that did not run out of fuel. *)
Definition holds
    (P : list (event (key:=key) (record:=record)) -> outcome (err:=err)
         -> generator -> Prop)
    (r : result) : Prop :=
  match r with
  | Some (evs, o, g) => P evs o g
  | None => True
  end.

Definition is_iterator (ev : event (key:=key) (record:=record)) : bool :=
  match ev with EvIterator _ => true | _ => false end.

(** Number of [.iterator()] calls made on filter results. *)
Definition iterator_calls (tr : list (event (key:=key) (record:=record))) : nat :=
  length (List.filter is_iterator tr).

(** [at_each_yield Q past tr]: whenever the consumer receives an element [x]
    in [tr], the events that came before it, [past] included, satisfy [Q]
    together with [x]. *)
Definition at_each_yield
    (Q : list (event (key:=key) (record:=record)) -> item -> Prop)
    (past tr : list event) : Prop :=
  forall tr1 x tr2, tr = tr1 ++ EvYield x :: tr2 -> Q (past ++ tr1) x.

(** The same generator called with another batch size. *)
Definition resized (batchsize : value)
    (g : generator (key:=key) (record:=record) (err:=err)) : generator :=
  match g with
  | QI qs _ gc_collect iterator_return f =>
      QI qs batchsize gc_collect iterator_return f
  | QS qs _ gc_collect f => QS qs batchsize gc_collect f
  end.
(** The result of a step, with the generator it leaves called with another
    batch size. *)
Definition resized_result (batchsize : value)
    (r : result (key:=key) (record:=record) (err:=err)) : result :=
  match r with
  | Some (evs, o, g) => Some (evs, o, resized batchsize g)
  | None => None
  end.
End Vocabulary.

(** ** More concrete querysets *)

Module MockErrors.
(** Key enumeration gives key 1 and then raises; the fetch of the buffer
    [1] raises too. *)
Definition both_break : queryset (record:=Mock.row) :=
  Queryset (KeyIterator true true [1] (Some "boom"%string))
           (fun pk_in => Fetched [] (Some "lost"%string)).

(** Rows of keys 2 and 3 are gone from the table by the time they are
    fetched. *)
Definition rows_gone : queryset (err:=string) :=
  Queryset (KeyIterator true true [1; 2; 3; 4; 5] None)
           (Mock.filter_mock [Mock.row_of 1 "1"; Mock.row_of 4 "4"; Mock.row_of 5 "5"]).
End MockErrors.

(** * Properties *)

Section Theory.
Context {key record err : Type}.

Local Abbreviation event := (event (key:=key) (record:=record)).
Local Abbreviation result := (result (key:=key) (record:=record) (err:=err)).
Local Abbreviation generator := (generator (key:=key) (record:=record) (err:=err)).
Local Abbreviation queryset := (queryset (key:=key) (record:=record) (err:=err)).
Local Abbreviation key_iterator := (key_iterator (key:=key) (err:=err)).
Local Abbreviation draws_for := (draws_for (key:=key) (record:=record)).
Local Abbreviation collect_after := (collect_after (key:=key) (record:=record)).
Local Abbreviation closing := (closing (key:=key) (record:=record) (err:=err)).

(** ** The consumer *)

Lemma pass_prepend (evs : list event) (r : result) tr fin :
  pass r tr fin -> pass (prepend evs r) (evs ++ tr) fin.
Proof.
  intros H. destruct H; simpl.
  - constructor.
  - constructor.
  - rewrite app_assoc. by constructor.
Qed.

Lemma pass_det (r : result) tr1 fin1 tr2 fin2 :
  pass r tr1 fin1 -> pass r tr2 fin2 -> tr1 = tr2 /\ fin1 = fin2.
Proof.
  intros H. revert tr2 fin2.
  induction H as [evs g|evs e g|evs x g tr fin _ IH]; intros tr2 fin2 H2;
    inversion H2; subst; try done.
  destruct (IH _ _ ltac:(eassumption)) as [-> ->]. done.
Qed.

Lemma full_pass_det (g : generator) tr1 fin1 tr2 fin2 :
  full_pass g tr1 fin1 -> full_pass g tr2 fin2 -> tr1 = tr2 /\ fin1 = fin2.
Proof. apply pass_det. Qed.

Lemma drive_sound fuel (g : generator) tr fin :
  drive fuel g = Some (tr, fin) -> full_pass g tr fin.
Proof.
  revert g tr fin. induction fuel as [|fuel IH]; intros g tr fin; [done|].
  unfold full_pass. simpl.
  destruct (resume g) as [[[evs [x| |e]] g']|]; try done.
  - destruct (drive fuel g') as [[tr' fin']|] eqn:E; [|done].
    intros [= <- <-]. constructor. by apply IH.
  - intros [= <- <-]. constructor.
  - intros [= <- <-]. constructor.
Qed.

(** ** The drawing loop *)

Lemma fill_int m (it : key_iterator) z rem (buf : list key) :
  answers m it = true ->
  (length buf <= Z.to_nat z)%nat ->
  fill (record:=record) (Int z) m it rem buf =
    if decide (Z.to_nat z - length buf <= length rem)%nat
    then (repeat EvDraw (Z.to_nat z - length buf),
          drop (Z.to_nat z - length buf) rem,
          buf ++ take (Z.to_nat z - length buf) rem, Normal)
    else (repeat EvDraw (S (length rem)), [], buf ++ rem, ended it).
Proof.
  intros Hm. revert buf.
  induction rem as [|k rem IH]; intros buf Hlen; simpl fill; unfold int_lt.
  - destruct (Z.ltb_spec (Z.of_nat (length buf)) z) as [Hlt|Hge].
    + rewrite Hm. rewrite decide_False by (simpl; lia).
      by rewrite app_nil_r.
    + replace (Z.to_nat z - length buf)%nat with 0%nat by lia.
      rewrite decide_True by (simpl; lia). by rewrite app_nil_r.
  - destruct (Z.ltb_spec (Z.of_nat (length buf)) z) as [Hlt|Hge].
    + rewrite Hm. rewrite IH by (rewrite length_app; simpl; lia).
      rewrite length_app. simpl length.
      destruct (Z.to_nat z - length buf)%nat as [|need] eqn:E; [exfalso; lia|].
      replace (Z.to_nat z - (length buf + 1))%nat with need by lia.
      destruct (decide (need <= length rem)%nat).
      * rewrite decide_True by lia. simpl. by rewrite <- app_assoc.
      * rewrite decide_False by lia. simpl. by rewrite <- app_assoc.
    + replace (Z.to_nat z - length buf)%nat with 0%nat by lia.
      rewrite decide_True by (simpl; lia). simpl. by rewrite app_nil_r.
Qed.

Lemma buffers_short (b : nat) (keys : list key) :
  (length keys < b)%nat -> buffers b keys = [keys].
Proof.
  intros H. unfold buffers. rewrite Nat.div_small by done. simpl.
  unfold buffer_at. rewrite Nat.mul_0_l, drop_0. by rewrite take_ge by lia.
Qed.

Lemma buffers_full (b : nat) (keys : list key) :
  (1 <= b <= length keys)%nat ->
  buffers b keys = take b keys :: buffers b (drop b keys).
Proof.
  intros [Hb Hlen]. unfold buffers.
  rewrite length_drop.
  replace (length keys / b)%nat with (S ((length keys - b) / b)).
  2:{ replace (length keys) with ((length keys - b) + 1 * b)%nat at 2 by lia.
      rewrite Nat.div_add by lia. lia. }
  set (n := ((length keys - b) / b)%nat).
  change (seq 0 (S (S n))) with (0%nat :: seq 1 (S n)).
  rewrite fmap_cons. f_equal.
  rewrite <- fmap_S_seq, <- list_fmap_compose.
  apply list_fmap_ext. intros ? i ?. unfold buffer_at; simpl.
  by rewrite drop_drop.
Qed.


(** ** The description, buffer by buffer *)

Lemma draws_for_full (b : nat) (buf : list key) :
  length buf = b -> draws_for b buf = repeat EvDraw b.
Proof.
  intros H. unfold draws_for. rewrite H, Nat.ltb_irrefl. by rewrite Nat.add_0_r.
Qed.


Lemma draws_for_short (b : nat) (buf : list key) :
  (length buf < b)%nat ->
  draws_for b buf = repeat EvDraw (S (length buf)).
Proof.
  intros H. unfold draws_for.
  destruct (Nat.ltb_spec (length buf) b); [|lia]. by rewrite Nat.add_1_r.
Qed.


Lemma play_cons v (qs : queryset) gc (b : nat) bufs buf cl :
  play v qs gc b (buf :: bufs) cl =
    match fetch_failure v qs buf with
    | Some e => (draws_for b buf ++ EvFilter buf :: yield_step v qs buf,
                 Failed (SourceError e))
    | None =>
        (draws_for b buf ++ EvFilter buf :: yield_step v qs buf
           ++ collect_after gc buf ++ (play v qs gc b bufs cl).1,
         (play v qs gc b bufs cl).2)
    end.
Proof.
  simpl. destruct (fetch_failure v qs buf); [done|].
  destruct (play v qs gc b bufs cl) as [tr fin]. simpl.
  unfold segment. by rewrite <- app_assoc, <- app_comm_cons, <- app_assoc.
Qed.


Lemma play_app v (qs : queryset) gc (b : nat) bufs1 bufs2 cl :
  play v qs gc b (bufs1 ++ bufs2) cl =
    play v qs gc b bufs1 (play v qs gc b bufs2 cl).
Proof.
  induction bufs1 as [|buf bufs1 IH]; [done|].
  simpl. by rewrite IH.
Qed.


Section Turns.
Variable qs : queryset.
Variable z : Z.
Variable gc : Z.
Hypothesis Hz : 1 <= z.

Local Abbreviation b := (Z.to_nat z).

(** A turn of the loop: the draws, then the [finally] clause. *)
Lemma enter_turn v f (it : key_iterator) :
  answers (method_of v) it = true ->
  enter v qs (Int z) gc (S f) it =
    let p := pending it in
    if decide (b <= length p)%nat
    then prepend (repeat EvDraw b)
           (finally_of v qs (Int z) gc (enter v qs (Int z) gc f)
              (rest_of it (drop b p)) (take b p) Normal)
    else prepend (repeat EvDraw (S (length p)))
           (finally_of v qs (Int z) gc (enter v qs (Int z) gc f)
              (rest_of it []) p (ended it)).
Proof.
  intros Hm.
  destruct v; simpl enter; unfold loop_qs; simpl in Hm |- *;
    rewrite fill_int by (done || simpl; lia);
    simpl length; rewrite Nat.sub_0_r;
    destruct (decide (b <= length (pending it))%nat); done.
Qed.

Lemma for_result_pass again (it : key_iterator) buf rs c tr fin :
  pass (collect_batch gc (QI qs (Int z) gc true QI_done) again it buf c) tr fin ->
  pass (collect_batch gc (QI qs (Int z) gc true QI_done)
          (while_true_qi qs (Int z) gc true) it buf c) tr fin ->
  pass (for_result qs (Int z) gc true again it buf rs None c)
       (((fun r => EvYield (Row r)) <$> rs) ++ tr) fin.
Proof.
  intros H1 H2. revert again H1.
  induction rs as [|r rs IH]; intros again H1; simpl.
  - apply H1.
  - apply (pass_yield []). simpl. by apply IH.
Qed.

Lemma for_result_fails again (it : key_iterator) buf rs e c :
  pass (for_result qs (Int z) gc true again it buf rs (Some e) c)
       ((fun r => EvYield (Row r)) <$> rs) (Failed (SourceError e)).
Proof.
  revert again.
  induction rs as [|r rs IH]; intros again; simpl.
  - constructor.
  - apply (pass_yield []). simpl. apply IH.
Qed.

(** The end of the [finally] clause and the exit from the [try]. *)
Lemma collect_batch_pass (done : generator) k (it : key_iterator) buf c tr fin :
  match c with
  | Normal => pass (k it) tr fin
  | Break => (tr, fin) = closing gc None
  | Reraise e => (tr, fin) = ([], Failed e)
  end ->
  pass (collect_batch gc done k it buf c) (collect_after gc buf ++ tr) fin.
Proof.
  intros H. unfold collect_batch. apply pass_prepend.
  destruct c as [| |e]; simpl.
  - done.
  - injection H as -> ->. constructor.
  - injection H as -> ->. constructor.
Qed.

Lemma finally_pass v again (it : key_iterator) buf c tr fin :
  continues gc again it c tr fin ->
  continues gc (enter v qs (Int z) gc (S (length (pending it)))) it c tr fin ->
  pass (finally_of v qs (Int z) gc again it buf c)
       (match fetch_failure v qs buf with
        | Some e => EvFilter buf :: yield_step v qs buf
        | None => EvFilter buf :: yield_step v qs buf ++ collect_after gc buf ++ tr
        end)
       (match fetch_failure v qs buf with
        | Some e => Failed (SourceError e)
        | None => fin
        end).
Proof.
  intros H1 H2. destruct v; simpl.
  - unfold finally_qi.
    destruct (failure (filter_pk_in qs buf)) as [e|].
    + apply (pass_prepend [_; _]). apply for_result_fails.
    + apply (pass_prepend [_; _]).
      apply for_result_pass; by apply collect_batch_pass.
  - apply (pass_yield [EvFilter buf]). simpl.
    by apply collect_batch_pass.
  - apply (pass_yield [EvFilter buf]). simpl.
    by apply collect_batch_pass.
Qed.

Lemma ended_closing (it : key_iterator) :
  match ended it with
  | Normal => False
  | Break => closing gc (ending it) = closing gc None
  | Reraise e => closing gc (ending it) = ([], Failed e)
  end.
Proof. unfold ended. by destruct (ending it). Qed.

Lemma finally_segment v again (it : key_iterator) n buf c cl :
  draws_for b buf = repeat EvDraw n ->
  continues gc again it c cl.1 cl.2 ->
  continues gc (enter v qs (Int z) gc (S (length (pending it)))) it c cl.1 cl.2 ->
  pass (prepend (repeat EvDraw n) (finally_of v qs (Int z) gc again it buf c))
       (play v qs gc b [buf] cl).1 (play v qs gc b [buf] cl).2.
Proof.
  intros Hn H1 H2. rewrite play_cons, Hn. simpl play.
  pose proof (finally_pass v again it buf c _ _ H1 H2) as H.
  destruct (fetch_failure v qs buf); simpl; by apply pass_prepend.
Qed.

Lemma enter_pass v n : forall (it : key_iterator) f,
  (length (pending it) <= n)%nat ->
  answers (method_of v) it = true ->
  (length (pending it) < f)%nat ->
  pass (enter v qs (Int z) gc f it)
       (played v qs gc b it).1 (played v qs gc b it).2.
Proof.
  induction n as [|n IH]; intros it f Hn Hm Hf.
  all: destruct f as [|f]; [lia|].
  all: unfold played; rewrite enter_turn by done; cbv zeta.
  all: destruct (decide (b <= length (pending it))%nat) as [Hfull|Hshort].
  all: try (exfalso; lia).
  1,3: rewrite buffers_short by lia;
       pose proof (ended_closing it) as Hc;
       apply finally_segment; [by apply draws_for_short; lia|..];
       unfold continues; destruct (ended it); try done;
       by rewrite <- surjective_pairing.
  rewrite buffers_full by lia.
  change (take b (pending it) :: ?l) with ([take b (pending it)] ++ l).
  rewrite play_app.
  assert (Hlen : (length (drop b (pending it)) <= n)%nat)
    by (rewrite length_drop; lia).
  apply finally_segment.
  - apply draws_for_full. rewrite length_take. lia.
  - apply (IH (rest_of it (drop b (pending it)))); simpl;
      [exact Hlen | destruct v; exact Hm | rewrite length_drop; lia].
  - apply (IH (rest_of it (drop b (pending it)))); simpl;
      [exact Hlen | destruct v; exact Hm | lia].
Qed.
End Turns.
End Theory.

(** ** The buffers of a pass *)

Section Buffers.
Context {key : Type}.
Implicit Types (keys buf : list key) (b : nat).

Lemma buffers_ind b (P : list key -> list (list key) -> Prop) :
  (1 <= b)%nat ->
  (forall keys, (length keys < b)%nat -> P keys [keys]) ->
  (forall keys, (b <= length keys)%nat ->
     P (drop b keys) (buffers b (drop b keys)) ->
     P keys (take b keys :: buffers b (drop b keys))) ->
  forall keys, P keys (buffers b keys).
Proof.
  intros Hb Hshort Hfull keys.
  remember (length keys) as n eqn:Hn. revert keys Hn.
  induction n as [n IH] using lt_wf_ind. intros keys ->.
  destruct (decide (b <= length keys)%nat) as [Hle|Hlt].
  - rewrite buffers_full by lia. apply Hfull; [done|].
    apply (IH (length (drop b keys))); [rewrite length_drop; lia|done].
  - rewrite buffers_short by lia. apply Hshort. lia.
Qed.

Lemma length_buffers b keys :
  length (buffers b keys) = S (length keys / b).
Proof. unfold buffers. by rewrite length_fmap, length_seq. Qed.

Lemma concat_buffers b keys :
  (1 <= b)%nat -> concat (buffers b keys) = keys.
Proof.
  intros Hb. apply (buffers_ind b (fun keys bufs => concat bufs = keys)); [done|..].
  - intros ks _. simpl. by rewrite app_nil_r.
  - intros ks _ IH. cbv beta in *. cbn [concat]. rewrite IH. apply take_drop.
Qed.

(** Every buffer but the last is full; the last holds the [n mod b] keys
    that remain, none when [b] divides [n]. *)
Lemma buffers_sizes b keys :
  (1 <= b)%nat ->
  exists full last,
    buffers b keys = full ++ [last] /\
    length full = (length keys / b)%nat /\
    Forall (fun buf => length buf = b) full /\
    length last = (length keys mod b)%nat.
Proof.
  intros Hb. apply (buffers_ind b (fun keys bufs =>
    exists full last, bufs = full ++ [last] /\
      length full = (length keys / b)%nat /\
      Forall (fun buf => length buf = b) full /\
      length last = (length keys mod b)%nat)); [done|..].
  - intros ks Hlt. exists [], ks. repeat split; try done.
    + simpl. by rewrite Nat.div_small.
    + by rewrite Nat.mod_small.
  - intros ks Hle (full & last & -> & Hfull & Hall & Hlast).
    exists (take b ks :: full), last.
    rewrite length_drop in Hfull, Hlast.
    assert (Hks : length ks = (length ks - b + 1 * b)%nat) by lia.
    repeat split.
    + simpl. rewrite Hfull. rewrite Hks at 2. rewrite Nat.div_add by lia. lia.
    + constructor; [|done]. rewrite length_take. lia.
    + rewrite Hlast. rewrite Hks at 2. by rewrite Nat.Div0.mod_add.
Qed.

(** The buffers that hold a key number [ceil(n / b)]. *)
Lemma buffers_nonempty b keys :
  (1 <= b)%nat ->
  length (List.filter truthy (buffers b keys))
    = (length keys / b + (if (length keys mod b =? 0)%nat then 0 else 1))%nat.
Proof.
  intros Hb. apply (buffers_ind b (fun keys bufs =>
    length (List.filter truthy bufs)
      = (length keys / b + (if (length keys mod b =? 0)%nat then 0 else 1))%nat));
    [done|..].
  - intros ks Hlt. rewrite Nat.div_small, Nat.mod_small by done.
    by destruct ks.
  - intros ks Hle IH. cbv beta in *. rewrite length_drop in IH.
    assert (Hks : length ks = (length ks - b + 1 * b)%nat) by lia.
    rewrite Hks at 1 2. rewrite Nat.div_add, Nat.Div0.mod_add by lia.
    cbn [List.filter]. destruct (take b ks) eqn:E.
    + apply (f_equal length) in E. rewrite length_take in E. simpl in E. lia.
    + cbn [truthy length]. rewrite IH. lia.
Qed.

(** Each key is drawn once, and one more draw finds the iterator at its
    end. *)
Lemma buffers_draws b keys :
  (1 <= b)%nat ->
  sum_list ((fun buf => length buf + (if (length buf <? b)%nat then 1 else 0))%nat
              <$> buffers b keys) = S (length keys).
Proof.
  intros Hb. apply (buffers_ind b (fun keys bufs =>
    sum_list ((fun buf => length buf + (if (length buf <? b)%nat then 1 else 0))%nat
                <$> bufs) = S (length keys))); [done|..].
  - intros ks Hlt. simpl. destruct (Nat.ltb_spec (length ks) b); lia.
  - intros ks Hle IH. cbv beta in *. rewrite fmap_cons.
    change (sum_list (?x :: ?l)) with (x + sum_list l)%nat. rewrite IH.
    rewrite length_take, length_drop.
    destruct (Nat.ltb_spec (b `min` length ks) b); lia.
Qed.

(** ** Lists of disjoint buffers *)

Lemma elem_of_concat (ls : list (list key)) x :
  x ∈ concat ls <-> exists l, x ∈ l /\ l ∈ ls.
Proof.
  induction ls as [|l ls IH]; simpl.
  - split; [by intros ?%elem_of_nil|]. by intros (l & _ & ?%elem_of_nil).
  - rewrite elem_of_app, IH. split.
    + intros [H|(l' & H1 & H2)]; [exists l|exists l']; split; try done;
        [by left|by right].
    + intros (l' & H1 & [->|H2]%elem_of_cons); [by left|right; eauto].
Qed.

Lemma concat_unique_index (ls : list (list key)) i j a c x :
  NoDup (concat ls) ->
  ls !! i = Some a -> ls !! j = Some c -> x ∈ a -> x ∈ c -> i = j.
Proof.
  revert i j. induction ls as [|l ls IH]; intros i j Hnd Hi Hj Ha Hc; [done|].
  simpl in Hnd. apply NoDup_app in Hnd as (_ & Hdis & Hnd).
  destruct i as [|i], j as [|j]; simpl in *; simplify_eq; try done.
  - exfalso. apply (Hdis x Ha). apply elem_of_concat.
    exists c. split; [done|]. by eapply list_elem_of_lookup_2.
  - exfalso. apply (Hdis x Hc). apply elem_of_concat.
    exists a. split; [done|]. by eapply list_elem_of_lookup_2.
  - f_equal. by apply IH.
Qed.
End Buffers.

(** ** Full passes *)

Section Passes.
Context {key record err : Type}.

Local Abbreviation event := (event (key:=key) (record:=record)).
Local Abbreviation generator := (generator (key:=key) (record:=record) (err:=err)).
Local Abbreviation queryset := (queryset (key:=key) (record:=record) (err:=err)).

Implicit Types (qs : queryset) (v : entry) (tr : list event).

(** With a batch size of at least 1 and a key iterator that has the method
    the entry calls, a full pass is the one that [played] describes. *)
Lemma full_pass_played v qs z gc :
  1 <= z ->
  answers (method_of v) (pk_iterator qs) = true ->
  full_pass (call v qs (Int z) gc)
    (EvOpen :: (played v qs gc (Z.to_nat z) (pk_iterator qs)).1)
    (played v qs gc (Z.to_nat z) (pk_iterator qs)).2.
Proof.
  intros Hz Hm. unfold full_pass.
  assert (Hlt : (z <? 1) = false) by lia.
  pose proof (enter_pass qs z gc Hz v _ (pk_iterator qs)
                (S (length (pending (pk_iterator qs)))) (le_n _) Hm (le_n _)) as H.
  destruct v;
    cbn [resume call queryset_iterator queryset_iterator_qs resume_qi
         resume_qs lt_int isinstance_int];
    rewrite Hlt; by apply (pass_prepend [EvOpen]).
Qed.

(** A batch size below 1 is refused by the first [next()], before anything
    is asked of the queryset. *)
Lemma resume_below_one v qs (bs : value) gc :
  lt_int (err:=err) bs 1 = inr true ->
  exists g, resume (call v qs bs gc)
            = Some ([], Raised (ValueError "Batch size must be above 0"), g).
Proof.
  intros H. destruct v; simpl; rewrite H; eauto.
Qed.

(** ** Reading the description *)

Lemma play_reliable v qs gc b bufs cl :
  (forall buf, buf ∈ bufs -> fetch_failure v qs buf = None) ->
  play v qs gc b bufs cl = (concat (segment v qs gc b <$> bufs) ++ cl.1, cl.2).
Proof.
  induction bufs as [|buf bufs IH]; intros H.
  - by destruct cl.
  - simpl. rewrite H by left. rewrite IH by (intros; apply H; by right).
    by rewrite <- app_assoc.
Qed.

Lemma play_broken v qs gc b pre buf post cl e :
  (forall x, x ∈ pre -> fetch_failure v qs x = None) ->
  fetch_failure v qs buf = Some e ->
  play v qs gc b (pre ++ buf :: post) cl =
    (concat (segment v qs gc b <$> pre) ++ before_collect v qs b buf,
     Failed (SourceError e)).
Proof.
  intros Hpre Hbuf. rewrite play_app, play_reliable by done.
  simpl. by rewrite Hbuf.
Qed.

Lemma filter_calls_app tr1 tr2 :
  filter_calls (tr1 ++ tr2) = filter_calls tr1 ++ filter_calls tr2.
Proof. apply omap_app. Qed.

Lemma rows_yielded_app tr1 tr2 :
  rows_yielded (tr1 ++ tr2) = rows_yielded tr1 ++ rows_yielded tr2.
Proof. apply omap_app. Qed.

Lemma batches_yielded_app tr1 tr2 :
  batches_yielded (tr1 ++ tr2) = batches_yielded tr1 ++ batches_yielded tr2.
Proof. apply omap_app. Qed.

Lemma collects_app tr1 tr2 : collects (tr1 ++ tr2) = (collects tr1 + collects tr2)%nat.
Proof. unfold collects. by rewrite List.filter_app, length_app. Qed.

Lemma draws_app tr1 tr2 : draws (tr1 ++ tr2) = (draws tr1 + draws tr2)%nat.
Proof. unfold draws. by rewrite List.filter_app, length_app. Qed.

Lemma draws_for_reading b (buf : list key) :
  filter_calls (draws_for (record:=record) b buf) = [] /\
  rows_yielded (draws_for (record:=record) b buf) = [] /\
  batches_yielded (draws_for (record:=record) b buf) = [] /\
  collects (draws_for (record:=record) b buf) = 0%nat /\
  draws (draws_for (record:=record) b buf)
    = (length buf + (if (length buf <? b)%nat then 1 else 0))%nat.
Proof.
  unfold draws_for.
  generalize (length buf + (if (length buf <? b)%nat then 1 else 0))%nat.
  intros n. induction n as [|n (H1 & H2 & H3 & H4 & H5)]; [done|].
  simpl. repeat split; try done.
  unfold draws in *. simpl. by rewrite H5.
Qed.

Lemma row_events_reading (rs : list record) :
  let tr : list event := (fun r => EvYield (Row r)) <$> rs in
  filter_calls tr = [] /\ rows_yielded tr = rs /\ batches_yielded tr = [] /\
  collects tr = 0%nat /\ draws tr = 0%nat.
Proof.
  induction rs as [|r rs (H1 & H2 & H3 & H4 & H5)]; [done|].
  cbn zeta in *. rewrite fmap_cons.
  unfold filter_calls, rows_yielded, batches_yielded, collects, draws in *.
  cbn [omap list_omap List.filter is_collect is_draw].
  by rewrite H2.
Qed.

Lemma yield_step_reading v qs (buf : list key) :
  filter_calls (yield_step v qs buf) = [] /\
  rows_yielded (yield_step v qs buf)
    = match v with Records => rows (filter_pk_in qs buf) | _ => [] end /\
  batches_yielded (yield_step v qs buf)
    = match v with Records => [] | _ => [buf] end /\
  collects (yield_step v qs buf) = 0%nat /\
  draws (yield_step v qs buf) = 0%nat.
Proof.
  destruct v; try done.
  destruct (row_events_reading (rows (filter_pk_in qs buf)))
    as (H1 & H2 & H3 & H4 & H5).
  unfold yield_step.
  unfold filter_calls, rows_yielded, batches_yielded, collects, draws in *.
  cbn [omap list_omap List.filter is_collect is_draw]. done.
Qed.

Lemma collect_after_reading gc (buf : list key) :
  filter_calls (collect_after (record:=record) gc buf) = [] /\
  rows_yielded (collect_after (record:=record) gc buf) = [] /\
  batches_yielded (collect_after (record:=record) gc buf) = [] /\
  collects (collect_after (record:=record) gc buf)
    = (if (gc =? GC_COLLECT_BATCH) && truthy buf then 1%nat else 0%nat) /\
  draws (collect_after (record:=record) gc buf) = 0%nat.
Proof.
  unfold collect_after. by destruct ((gc =? GC_COLLECT_BATCH) && truthy buf).
Qed.

(** What one segment contributes to each reading. *)
Lemma segment_reading v qs gc b (buf : list key) :
  filter_calls (segment v qs gc b buf) = [buf] /\
  rows_yielded (segment v qs gc b buf)
    = match v with Records => rows (filter_pk_in qs buf) | _ => [] end /\
  batches_yielded (segment v qs gc b buf)
    = match v with Records => [] | _ => [buf] end /\
  collects (segment v qs gc b buf)
    = (if (gc =? GC_COLLECT_BATCH) && truthy buf then 1%nat else 0%nat) /\
  draws (segment v qs gc b buf)
    = (length buf + (if (length buf <? b)%nat then 1 else 0))%nat.
Proof.
  destruct (draws_for_reading b buf) as (D1 & D2 & D3 & D4 & D5).
  destruct (yield_step_reading v qs buf) as (Y1 & Y2 & Y3 & Y4 & Y5).
  destruct (collect_after_reading gc buf) as (C1 & C2 & C3 & C4 & C5).
  unfold segment.
  change (EvFilter buf :: ?l) with ([EvFilter buf] ++ l).
  rewrite !filter_calls_app, !rows_yielded_app, !batches_yielded_app,
    !collects_app, !draws_app.
  rewrite D1, D2, D3, D4, D5, Y1, Y2, Y3, Y4, Y5, C1, C2, C3, C4, C5.
  change (draws [EvFilter buf]) with 0%nat.
  rewrite ?app_nil_r. repeat split; try done; lia.
Qed.

Lemma segments_reading v qs gc b (bufs : list (list key)) :
  let tr := concat (segment v qs gc b <$> bufs) in
  filter_calls tr = bufs /\
  rows_yielded tr
    = match v with
      | Records => concat ((fun buf => rows (filter_pk_in qs buf)) <$> bufs)
      | _ => []
      end /\
  batches_yielded tr = match v with Records => [] | _ => bufs end /\
  collects tr
    = (if gc =? GC_COLLECT_BATCH then length (List.filter truthy bufs) else 0%nat) /\
  draws tr
    = sum_list ((fun buf => length buf + (if (length buf <? b)%nat then 1 else 0))%nat <$> bufs).
Proof.
  induction bufs as [|buf bufs (H1 & H2 & H3 & H4 & H5)]; cbn zeta in *.
  - repeat split; try done; [by destruct v..|by destruct (gc =? _)].
  - destruct (segment_reading v qs gc b buf) as (S1 & S2 & S3 & S4 & S5).
    rewrite fmap_cons. cbn [concat].
    rewrite !filter_calls_app, !rows_yielded_app, !batches_yielded_app,
      !collects_app, !draws_app.
    rewrite H1, H2, H3, H4, H5, S1, S2, S3, S4, S5.
    repeat split; try done.
    + by destruct v.
    + by destruct v.
    + simpl. destruct (gc =? GC_COLLECT_BATCH); [|done].
      simpl. by destruct (truthy buf).
Qed.
End Passes.

(** ** Fetching from a table *)

Section Table.
Context {key record : Type} `{EqDecision key}.
Variable pk : record -> key.
Variable table : list record.

Lemma fetch_app (l1 l2 : list key) :
  (forall x, x ∈ l1 -> x ∉ l2) ->
  filter (fun r => pk r ∈ l1) table ++ filter (fun r => pk r ∈ l2) table
    ≡ₚ filter (fun r => pk r ∈ l1 ++ l2) table.
Proof.
  intros Hdis. induction table as [|r rs IH]; [done|].
  rewrite !filter_cons.
  destruct (decide (pk r ∈ l1)) as [H1|H1], (decide (pk r ∈ l2)) as [H2|H2].
  - by destruct (Hdis _ H1).
  - rewrite decide_True by (apply elem_of_app; by left).
    simpl. by rewrite IH.
  - rewrite decide_True by (apply elem_of_app; by right).
    rewrite <- Permutation_middle. by rewrite IH.
  - rewrite decide_False; [done|].
    intros [?|?]%elem_of_app; done.
Qed.

Lemma fetch_concat (bufs : list (list key)) :
  NoDup (concat bufs) ->
  concat ((fun buf => filter (fun r => pk r ∈ buf) table) <$> bufs)
    ≡ₚ filter (fun r => pk r ∈ concat bufs) table.
Proof.
  induction bufs as [|buf bufs IH]; intros Hnd; simpl.
  - induction table as [|r rs IHrs]; [done|].
    rewrite filter_cons. rewrite decide_False; [done|]. apply not_elem_of_nil.
  - apply NoDup_app in Hnd as (_ & Hdis & Hnd).
    rewrite IH by done. by apply fetch_app.
Qed.

Lemma fetch_all (keys : list key) :
  (forall r, r ∈ table -> pk r ∈ keys) ->
  filter (fun r => pk r ∈ keys) table = table.
Proof.
  induction table as [|r rs IH]; intros H; [done|].
  rewrite filter_cons, decide_True by (apply H; by left).
  f_equal. apply IH. intros r' Hr'. apply H. by right.
Qed.
End Table.

(** ** Passes over a source that does not fail *)

Section Reliable.
Context {key record err : Type}.

Local Abbreviation event := (event (key:=key) (record:=record)).
Local Abbreviation generator := (generator (key:=key) (record:=record) (err:=err)).
Local Abbreviation queryset := (queryset (key:=key) (record:=record) (err:=err)).

Implicit Types (qs : queryset) (v : entry) (tr : list event).

Lemma reliable_fetch v qs (bufs : list (list key)) :
  (forall buf, failure (filter_pk_in qs buf) = None) ->
  forall buf, buf ∈ bufs -> fetch_failure v qs buf = None.
Proof. intros H buf _. destruct v; simpl; auto. Qed.

(** The events of a pass that the key enumeration lets run to its end. *)
Lemma full_pass_reliable v qs z gc :
  1 <= z ->
  answers (method_of v) (pk_iterator qs) = true ->
  reliable qs ->
  full_pass (call v qs (Int z) gc)
    (EvOpen :: concat (segment v qs gc (Z.to_nat z)
                         <$> buffers (Z.to_nat z) (pending (pk_iterator qs)))
       ++ (if gc =? GC_COLLECT_END then [EvCollect] else []))
    Completed.
Proof.
  intros Hz Hm [Hend Hfetch].
  pose proof (full_pass_played v qs z gc Hz Hm) as H.
  unfold played in H.
  rewrite play_reliable in H by by apply reliable_fetch.
  by rewrite Hend in H.
Qed.

(** The events of a pass whose key enumeration raises [e]. *)
Lemma full_pass_keys_fail v qs z gc e :
  1 <= z ->
  answers (method_of v) (pk_iterator qs) = true ->
  ending (pk_iterator qs) = Some e ->
  (forall buf, failure (filter_pk_in qs buf) = None) ->
  full_pass (call v qs (Int z) gc)
    (EvOpen :: concat (segment v qs gc (Z.to_nat z)
                         <$> buffers (Z.to_nat z) (pending (pk_iterator qs))))
    (Failed (SourceError e)).
Proof.
  intros Hz Hm Hend Hfetch.
  pose proof (full_pass_played v qs z gc Hz Hm) as H.
  unfold played in H.
  rewrite play_reliable in H by by apply reliable_fetch.
  rewrite Hend in H. simpl in H. by rewrite app_nil_r in H.
Qed.

(** The events of a pass in which the fetch of buffer [i] raises [e]. *)
Lemma full_pass_fetch_fails qs z gc i buf e :
  1 <= z ->
  has_next (pk_iterator qs) = true ->
  buffers (Z.to_nat z) (pending (pk_iterator qs)) !! i = Some buf ->
  (forall j bj, (j < i)%nat ->
     buffers (Z.to_nat z) (pending (pk_iterator qs)) !! j = Some bj ->
     failure (filter_pk_in qs bj) = None) ->
  failure (filter_pk_in qs buf) = Some e ->
  full_pass (queryset_iterator qs (Int z) gc true)
    (EvOpen :: concat (segment Records qs gc (Z.to_nat z)
                         <$> take i (buffers (Z.to_nat z) (pending (pk_iterator qs))))
       ++ before_collect Records qs (Z.to_nat z) buf)
    (Failed (SourceError e)).
Proof.
  intros Hz Hm Hi Hbefore Hbuf.
  pose proof (full_pass_played Records qs z gc Hz Hm) as H.
  unfold played in H.
  rewrite <- (take_drop_middle _ _ _ Hi) in H at 1 2.
  rewrite (play_broken _ _ _ _ _ _ _ _ e) in H; [done| |done].
  intros x [j Hj]%list_elem_of_lookup.
  apply lookup_take_Some in Hj as [Hj Hlt]. by eapply Hbefore.
Qed.

(** The two batch entries agree on a key iterator that has both method
    names. *)
Lemma play_batches qs gc b (bufs : list (list key)) cl :
  play Batches qs gc b bufs cl = play BatchesQs qs gc b bufs cl.
Proof.
  induction bufs as [|buf bufs IH]; [done|]. simpl. by rewrite IH.
Qed.

Lemma batch_entries_agree qs z gc tr fin :
  has_next (pk_iterator qs) = true ->
  has_dunder_next (pk_iterator qs) = true ->
  full_pass (queryset_iterator qs (Int z) gc false) tr fin <->
  full_pass (queryset_iterator_qs qs (Int z) gc) tr fin.
Proof.
  intros H1 H2.
  destruct (Z.ltb_spec z 1) as [Hlt|Hge].
  - assert (Hz : lt_int (err:=err) (Int z) 1 = inr true).
    { simpl. f_equal. lia. }
    destruct (resume_below_one Batches qs (Int z) gc Hz) as [g1 Hg1].
    destruct (resume_below_one BatchesQs qs (Int z) gc Hz) as [g2 Hg2].
    change (call Batches qs (Int z) gc)
      with (queryset_iterator qs (Int z) gc false) in Hg1.
    change (call BatchesQs qs (Int z) gc)
      with (queryset_iterator_qs qs (Int z) gc) in Hg2.
    unfold full_pass. rewrite Hg1, Hg2.
    split; inversion 1; constructor.
  - pose proof (full_pass_played Batches qs z gc Hge H1) as P1.
    pose proof (full_pass_played BatchesQs qs z gc Hge H2) as P2.
    unfold played in *. rewrite play_batches in P1. simpl in P1, P2.
    split; intros H.
    + destruct (full_pass_det _ _ _ _ _ H P1) as [-> ->]. done.
    + destruct (full_pass_det _ _ _ _ _ H P2) as [-> ->]. done.
Qed.

(** [queryset_iterator_qs] refuses every batch size that is not an [int]. *)
Lemma qs_refuses_non_int qs (bs : value) gc :
  isinstance_int bs = false ->
  exists msg g,
    resume (queryset_iterator_qs qs bs gc) = Some ([], Raised (ValueError msg), g) \/
    resume (queryset_iterator_qs qs bs gc) = Some ([], Raised (TypeError msg), g).
Proof.
  intros H. simpl. destruct bs as [n|q| |[|]|t]; [done|..]; simpl.
  - destruct (Qltb q (inject_Z 1)); eauto.
  - eauto.
  - eauto.
  - eauto.
  - eauto.
Qed.

(** ** A key iterator without the method that the entry calls *)

Lemma prepend_nil (r : result (key:=key) (record:=record) (err:=err)) :
  prepend [] r = r.
Proof. by destruct r as [[[??]?]|]. Qed.

Lemma fill_unanswered z m (it : key_iterator (key:=key) (err:=err)) rem :
  1 <= z ->
  answers m it = false ->
  fill (record:=record) (Int z) m it rem []
    = ([], rem, [], Reraise (AttributeError (method_name m))).
Proof.
  intros Hz Hm.
  assert (Hlt : (Z.of_nat 0 <? z) = true) by (apply Z.ltb_lt; simpl; lia).
  destruct rem; simpl; by rewrite Hlt, Hm.
Qed.

(** The attribute lookup fails in the [try] block before any key is drawn;
    the [finally] clause runs for the empty buffer and the
    [AttributeError] follows. *)
Lemma full_pass_missing_method v qs z gc :
  1 <= z ->
  answers (method_of v) (pk_iterator qs) = false ->
  fetch_failure v qs [] = None ->
  full_pass (call v qs (Int z) gc)
    (EvOpen :: EvFilter [] :: yield_step v qs [])
    (Failed (AttributeError (method_name (method_of v)))).
Proof.
  intros Hz Hm Hfetch.
  assert (Hlt : (z <? 1) = false) by lia.
  assert (Hturn : forall f,
    enter v qs (Int z) gc (S f) (pk_iterator qs)
      = finally_of v qs (Int z) gc (enter v qs (Int z) gc f)
          (rest_of (pk_iterator qs) (pending (pk_iterator qs))) []
          (Reraise (AttributeError (method_name (method_of v))))).
  { intros f. destruct v; simpl in Hm |- *; unfold loop_qs;
      rewrite fill_unanswered by done; (apply prepend_nil || reflexivity). }
  pose proof (finally_pass qs z gc v
    (enter v qs (Int z) gc (length (pending (pk_iterator qs))))
    (rest_of (pk_iterator qs) (pending (pk_iterator qs))) []
    (Reraise (AttributeError (method_name (method_of v))))
    [] (Failed (AttributeError (method_name (method_of v))))
    eq_refl eq_refl) as Hfin.
  rewrite Hfetch in Hfin. rewrite <- Hturn in Hfin.
  assert (Hcol : collect_after (record:=record) gc ([] : list key) = []).
  { unfold collect_after. by rewrite andb_false_r. }
  rewrite Hcol, !app_nil_r in Hfin.
  unfold full_pass.
  destruct v;
    cbn [resume call queryset_iterator queryset_iterator_qs resume_qi
         resume_qs lt_int isinstance_int];
    rewrite Hlt; by apply (pass_prepend [EvOpen]).
Qed.
End Reliable.

(** * The claims *)

Section Claims.
Context {key record err : Type} `{EqDecision key}.

Local Abbreviation event := (event (key:=key) (record:=record)).
Local Abbreviation generator := (generator (key:=key) (record:=record) (err:=err)).
Local Abbreviation queryset := (queryset (key:=key) (record:=record) (err:=err)).

Implicit Types (qs : queryset) (v : entry) (tr : list event).

Lemma fetched_rows (pk : record -> key) (table : list record) qs
    (bufs : list (list key)) :
  (forall buf,
     rows (filter_pk_in qs buf) ≡ₚ filter (fun r => pk r ∈ buf) table) ->
  concat ((fun buf => rows (filter_pk_in qs buf)) <$> bufs)
    ≡ₚ concat ((fun buf => filter (fun r => pk r ∈ buf) table) <$> bufs).
Proof.
  intros H. induction bufs as [|buf bufs IH]; [done|].
  rewrite !fmap_cons. cbn [concat]. by rewrite IH, H.
Qed.

(** X18.  For every batch size of at least 1, a full pass in RECORDS mode
    over a source that stands for a table of records, and whose key iterator
    has the [next] method that line 48 calls, yields exactly the records of
    the table, as a multiset; the buffers passed to [filter], concatenated,
    are the key sequence; two different fetch calls share no key; and every
    key is in exactly one fetch call. *)
Theorem records_mode_covers_a_source_with_next
    (pk : record -> key) (table : list record) qs z gc :
  1 <= z ->
  has_next (pk_iterator qs) = true ->
  serves pk table qs ->
  exists tr,
    full_pass (queryset_iterator qs (Int z) gc true) tr Completed /\
    rows_yielded tr ≡ₚ table /\
    concat (filter_calls tr) = pending (pk_iterator qs) /\
    (forall i j bi bj,
       filter_calls tr !! i = Some bi -> filter_calls tr !! j = Some bj ->
       i <> j -> forall k, k ∈ bi -> k ∉ bj) /\
    (forall k, k ∈ pending (pk_iterator qs) ->
       exists i bi,
         filter_calls tr !! i = Some bi /\ k ∈ bi /\
         forall j bj, filter_calls tr !! j = Some bj -> k ∈ bj -> j = i).
Proof.
  intros Hz Hm (Hnd & Hkeys & Hend & Hfetch).
  assert (Hb : (1 <= Z.to_nat z)%nat) by lia.
  set (b := Z.to_nat z) in *.
  set (keys := pending (pk_iterator qs)) in *.
  assert (Hrel : reliable qs) by (split; [done|]; intros buf; apply Hfetch).
  pose proof (full_pass_reliable Records qs z gc Hz Hm Hrel) as Hpass.
  fold b keys in Hpass.
  destruct (segments_reading Records qs gc b (buffers b keys))
    as (Hcalls & Hrows & _).
  cbv zeta in Hcalls, Hrows.
  set (body := concat (segment Records qs gc b <$> buffers b keys)) in *.
  set (tail := if gc =? GC_COLLECT_END then [EvCollect] else []) in *.
  assert (Hc : filter_calls (EvOpen :: body ++ tail) = buffers b keys).
  { change (EvOpen :: ?l) with ([EvOpen] ++ l).
    rewrite !filter_calls_app, Hcalls. subst tail.
    destruct (gc =? GC_COLLECT_END); simpl; by rewrite app_nil_r. }
  assert (Hr : rows_yielded (EvOpen :: body ++ tail)
               = concat ((fun buf => rows (filter_pk_in qs buf)) <$> buffers b keys)).
  { change (EvOpen :: ?l) with ([EvOpen] ++ l).
    rewrite !rows_yielded_app, Hrows. subst tail.
    destruct (gc =? GC_COLLECT_END); simpl; by rewrite app_nil_r. }
  exists (EvOpen :: body ++ tail). rewrite Hc, Hr.
  pose proof (concat_buffers b keys Hb) as Hcat.
  split; [exact Hpass|]. split; [|split; [done|split]].
  - transitivity (concat ((fun buf => filter (fun r => pk r ∈ buf) table)
                            <$> buffers b keys)).
    + apply fetched_rows. intros buf. apply Hfetch.
    + rewrite fetch_concat by by rewrite Hcat.
      rewrite Hcat. rewrite fetch_all; [done|].
      intros r Hr'. apply Hkeys. by apply list_elem_of_fmap_2.
  - intros i j bi bj Hi Hj Hij k Hki Hkj. apply Hij.
    eapply (concat_unique_index _ i j bi bj k); try done. by rewrite Hcat.
  - intros k Hk. rewrite <- Hcat in Hk.
    apply elem_of_concat in Hk as (bi & Hki & [i Hi]%list_elem_of_lookup).
    exists i, bi. split; [done|]. split; [done|].
    intros j bj Hj Hkj.
    eapply (concat_unique_index _ j i bj bi k); try done. by rewrite Hcat.
Qed.

(** C3.  In RECORDS mode a source whose key iterator is a Python 3
    iterator, with [__next__] and no [next], is not covered.  For every
    batch size of at least 1 and every table of records that the source
    stands for, the pass draws no key, passes only the empty buffer to
    [filter], yields no record and ends with the [AttributeError] of
    line 48: whenever the table holds a record, the records yielded are not
    the records of the table and no key of the source is in a fetch call. *)
Theorem C3_records_mode_misses_a_python3_source
    (pk : record -> key) (table : list record) qs z gc :
  1 <= z ->
  has_next (pk_iterator qs) = false ->
  serves pk table qs ->
  exists tr,
    full_pass (queryset_iterator qs (Int z) gc true) tr
      (Failed (AttributeError "next")) /\
    tr = [EvOpen; EvFilter []; EvIterator []] /\
    rows_yielded tr = [] /\
    (table <> [] -> ~ rows_yielded tr ≡ₚ table) /\
    (forall k buf, k ∈ pending (pk_iterator qs) -> buf ∈ filter_calls tr -> k ∉ buf).
Proof.
  intros Hz Hm (_ & _ & _ & Hfetch).
  destruct (Hfetch []) as [Hfail Hrows].
  assert (Hnone : filter (fun r => pk r ∈ ([] : list key)) table = []).
  { clear. induction table as [|r table IH]; [done|].
    rewrite filter_cons, decide_False; [done|]. apply not_elem_of_nil. }
  rewrite Hnone in Hrows. apply Permutation_nil_r in Hrows.
  pose proof (full_pass_missing_method Records qs z gc Hz Hm Hfail) as Hpass.
  simpl in Hpass. rewrite Hrows in Hpass. simpl in Hpass.
  eexists. split; [exact Hpass|]. split; [done|]. split; [done|]. split.
  - intros Htable Hperm. simpl in Hperm. symmetry in Hperm.
    by apply Permutation_nil_r in Hperm.
  - intros k buf _ Hbuf. simpl in Hbuf.
    apply list_elem_of_singleton in Hbuf as ->. apply not_elem_of_nil.
Qed.


Lemma last_buffer_empty b (keys : list key) :
  (1 <= b)%nat ->
  (length keys mod b = 0)%nat ->
  last (buffers b keys) = Some [].
Proof.
  intros Hb Hmod.
  destruct (buffers_sizes b keys Hb) as (full & l & -> & _ & _ & Hl).
  rewrite last_snoc. rewrite Hmod in Hl. by destruct l.
Qed.

(** C4.  A batch size below 1 makes the iterator fail with [ValueError];
    calling the function runs nothing, and the failure comes with the first
    [next()], which has asked nothing of the queryset: the key iterator is
    not opened and no key is drawn. *)
Theorem C4_batchsize_below_one_fails_at_first_next v qs z gc :
  z < 1 ->
  started (call v qs (Int z) gc) = false /\
  exists g,
    resume (call v qs (Int z) gc)
      = Some ([], Raised (ValueError "Batch size must be above 0"), g) /\
    started g = true.
Proof.
  intros Hz. split; [by destruct v|].
  assert (Hlt : (z <? 1) = true) by lia.
  destruct v; simpl; rewrite Hlt; eauto.
Qed.

(** C6.  For each entry and every batch size of at least 1, over a source
    that raises nothing and whose key iterator has the method the entry
    calls: under [GC_COLLECT_BATCH] a full pass is, buffer after buffer, the
    draws, the [filter] call, the yield step and then, when the buffer holds
    a key, one [gc.collect()]; nothing is collected before the yield step of
    a buffer is over, the collections number the non-empty buffers, and
    there is none when the source has no key. *)
Theorem C6_collect_once_after_each_nonempty_batch v qs z :
  1 <= z ->
  answers (method_of v) (pk_iterator qs) = true ->
  reliable qs ->
  let b := Z.to_nat z in
  let bufs := buffers b (pending (pk_iterator qs)) in
  let tr :=
    EvOpen :: concat ((fun buf =>
      before_collect v qs b buf ++ (if truthy buf then [EvCollect] else []))
      <$> bufs) in
  full_pass (call v qs (Int z) GC_COLLECT_BATCH) tr Completed /\
  (forall buf, collects (before_collect v qs b buf) = 0%nat) /\
  collects tr = length (List.filter truthy bufs) /\
  (pending (pk_iterator qs) = [] -> collects tr = 0%nat).
Proof.
  intros Hz Hm Hrel b bufs tr.
  pose proof (full_pass_reliable v qs z GC_COLLECT_BATCH Hz Hm Hrel) as Hpass.
  fold b bufs in Hpass. simpl in Hpass. rewrite app_nil_r in Hpass.
  assert (Hseg : forall buf,
    segment v qs GC_COLLECT_BATCH b buf
      = before_collect v qs b buf ++ (if truthy buf then [EvCollect] else [])).
  { intros buf. unfold segment, before_collect, collect_after.
    by rewrite <- app_assoc. }
  assert (Htr : tr = EvOpen :: concat (segment v qs GC_COLLECT_BATCH b <$> bufs)).
  { subst tr. do 2 f_equal. apply list_fmap_ext. intros _ buf _. by rewrite Hseg. }
  assert (Hcount : collects tr = length (List.filter truthy bufs)).
  { rewrite Htr. change (EvOpen :: ?l) with ([EvOpen] ++ l).
    rewrite collects_app.
    by destruct (segments_reading v qs GC_COLLECT_BATCH b bufs)
      as (_ & _ & _ & -> & _). }
  split; [by rewrite Htr|]. split; [|split; [done|]].
  - intros buf. unfold before_collect.
    destruct (draws_for_reading (record:=record) b buf) as (_ & _ & _ & D & _).
    destruct (yield_step_reading v qs buf) as (_ & _ & _ & Y & _).
    change (EvFilter buf :: ?l) with ([EvFilter buf] ++ l).
    rewrite !collects_app. by rewrite D, Y.
  - intros Hnil. rewrite Hcount. subst bufs. rewrite Hnil.
    rewrite buffers_short by (simpl; lia). done.
Qed.

(** For each entry and every batch size of at least 1, over a source that
    raises nothing and whose key iterator has the method the entry calls:
    under [GC_COLLECT_END] a full pass ends with one [gc.collect()], which
    is the only one, whatever the number of buffers, and also when the
    source has no key. *)
Lemma collect_at_the_end_comes_last v qs z :
  1 <= z ->
  answers (method_of v) (pk_iterator qs) = true ->
  reliable qs ->
  exists tr,
    full_pass (call v qs (Int z) GC_COLLECT_END) (tr ++ [EvCollect]) Completed /\
    collects tr = 0%nat /\
    collects (tr ++ [EvCollect]) = 1%nat /\
    filter_calls tr = buffers (Z.to_nat z) (pending (pk_iterator qs)).
Proof.
  intros Hz Hm Hrel.
  pose proof (full_pass_reliable v qs z GC_COLLECT_END Hz Hm Hrel) as Hpass.
  remember (buffers (Z.to_nat z) (pending (pk_iterator qs))) as bufs.
  destruct (segments_reading v qs GC_COLLECT_END (Z.to_nat z) bufs)
    as (Hcalls & _ & _ & Hcol & _).
  cbv zeta in Hcalls, Hcol. simpl in Hcol, Hpass.
  eexists (EvOpen :: _). split; [exact Hpass|].
  change (EvOpen :: ?l) with ([EvOpen] ++ l).
  rewrite !collects_app, filter_calls_app, Hcol, Hcalls. done.
Qed.

(** C7.  Under [GC_COLLECT_END], [queryset_iterator] over a Python 3 key
    iterator, with [__next__] and no [next], never calls [gc.collect()].
    For every batch size of at least 1, in both modes and whatever the
    keys of the source, none included, the pass ends with the
    [AttributeError] of line 48 and lines 69-71 are not reached;
    [queryset_iterator_qs] over the same source runs to its end and calls
    [gc.collect()] once, last. *)
Theorem C7_queryset_iterator_never_collects_on_a_python3_iterator qs z ir :
  1 <= z ->
  has_next (pk_iterator qs) = false ->
  has_dunder_next (pk_iterator qs) = true ->
  reliable qs ->
  (exists tr,
     full_pass (queryset_iterator qs (Int z) GC_COLLECT_END ir) tr
       (Failed (AttributeError "next")) /\
     collects tr = 0%nat /\ draws tr = 0%nat) /\
  (exists tr,
     full_pass (queryset_iterator_qs qs (Int z) GC_COLLECT_END)
       (tr ++ [EvCollect]) Completed /\
     collects tr = 0%nat).
Proof.
  intros Hz Hnext Hdunder Hrel. split.
  - set (v := if ir then Records else Batches).
    assert (Hcall : call v qs (Int z) GC_COLLECT_END
                    = queryset_iterator qs (Int z) GC_COLLECT_END ir)
      by (subst v; by destruct ir).
    assert (Hm : answers (method_of v) (pk_iterator qs) = false)
      by (subst v; by destruct ir).
    assert (Hname : method_name (method_of v) = "next"%string)
      by (subst v; by destruct ir).
    assert (Hfetch : fetch_failure v qs [] = None)
      by (apply (reliable_fetch v qs [[]]); [apply Hrel|by left]).
    pose proof (full_pass_missing_method v qs z GC_COLLECT_END Hz Hm Hfetch)
      as Hpass.
    rewrite Hcall, Hname in Hpass.
    eexists. split; [exact Hpass|].
    destruct (yield_step_reading v qs ([] : list key)) as (_ & _ & _ & Y4 & Y5).
    change (EvOpen :: EvFilter [] :: ?l) with ([EvOpen; EvFilter []] ++ l).
    by rewrite collects_app, draws_app, Y4, Y5.
  - destruct (collect_at_the_end_comes_last BatchesQs qs z Hz Hdunder Hrel)
      as (tr & Hpass & Hcol & _).
    by exists tr.
Qed.

(** C8, as the code has it.  An error of the source is never caught,
    translated or retried, and it ends the pass.  An error raised by a fetch
    ends the pass there: after the rows that the fetch gave before raising,
    nothing is drawn, fetched, yielded or collected.  An error raised by the
    key enumeration ends the pass with that error and after one draw more
    than there are keys, but only once the [finally] clause has run for the
    buffer that was being filled: the buffer goes to [filter], its yield
    step takes place and, under [GC_COLLECT_BATCH], a non-empty buffer is
    followed by [gc.collect()]. *)
Theorem C8_source_errors_end_the_pass qs z gc e :
  1 <= z ->
  has_next (pk_iterator qs) = true ->
  let b := Z.to_nat z in
  let bufs := buffers b (pending (pk_iterator qs)) in
  (forall ir,
     ending (pk_iterator qs) = Some e ->
     (forall buf, failure (filter_pk_in qs buf) = None) ->
     let v := if ir : bool then Records else Batches in
     let tr := EvOpen :: concat (segment v qs gc b <$> bufs) in
     full_pass (queryset_iterator qs (Int z) gc ir) tr (Failed (SourceError e)) /\
     filter_calls tr = bufs /\
     draws tr = S (length (pending (pk_iterator qs)))) /\
  (forall i buf,
     bufs !! i = Some buf ->
     (forall j bj, (j < i)%nat -> bufs !! j = Some bj ->
        failure (filter_pk_in qs bj) = None) ->
     failure (filter_pk_in qs buf) = Some e ->
     full_pass (queryset_iterator qs (Int z) gc true)
       (EvOpen :: concat (segment Records qs gc b <$> take i bufs)
          ++ draws_for b buf
          ++ EvFilter buf :: EvIterator buf
          :: ((fun r => EvYield (Row r)) <$> rows (filter_pk_in qs buf)))
       (Failed (SourceError e))).
Proof.
  intros Hz Hm b bufs. split.
  - intros ir Hend Hfetch v tr.
    assert (Hv : queryset_iterator qs (Int z) gc ir = call v qs (Int z) gc)
      by by destruct ir.
    assert (Hmv : answers (method_of v) (pk_iterator qs) = true)
      by by destruct ir.
    rewrite Hv.
    split; [by apply full_pass_keys_fail|].
    destruct (segments_reading v qs gc b bufs) as (Hcalls & _ & _ & _ & Hdraws).
    cbv zeta in Hcalls, Hdraws. subst tr.
    change (EvOpen :: ?l) with ([EvOpen] ++ l).
    rewrite filter_calls_app, draws_app, Hcalls, Hdraws.
    split; [done|]. subst bufs. rewrite buffers_draws by lia. done.
  - intros i buf Hi Hbefore Hbuf.
    by apply (full_pass_fetch_fails qs z gc i buf e).
Qed.

(** C10.  In [queryset_iterator_qs] the size check comes first: a batch size
    that is not an [int] and compares below 1 raises the [ValueError] of the
    size check, and the [TypeError] of the type check is raised exactly for
    the batch sizes that are not an [int] and compare not below 1. *)
Theorem C10_size_check_precedes_type_check qs (bs : value) gc :
  isinstance_int bs = false ->
  (lt_int (err:=err) bs 1 = inr true ->
   exists g, resume (queryset_iterator_qs qs bs gc)
             = Some ([], Raised (ValueError "Batch size must be above 0"), g)) /\
  ((exists g, resume (queryset_iterator_qs qs bs gc)
              = Some ([], Raised (TypeError "batchsize must be an integer"), g))
   <-> lt_int (err:=err) bs 1 = inr false).
Proof.
  intros Hint. split.
  - intros Hlt. simpl. rewrite Hlt. eauto.
  - simpl. destruct (lt_int bs 1) as [e|[|]] eqn:Hlt.
    + split; [|done]. intros [g Hg]. exfalso.
      destruct bs as [n|q| |neg|t]; try done. simpl in Hlt.
      injection Hlt as <-. done.
    + split; [|done]. by intros [g Hg].
    + rewrite Hint. split; eauto.
Qed.
End Claims.

(** * The claims on concrete querysets *)

(** C1.  A pass in BATCHES mode over a source whose number of keys is a
    multiple of the batch size does yield a batch for the empty final
    buffer: with no key and batch size 1, and with four keys and batch
    size 2, the last element yielded is [filter(pk__in=[])]. *)
Theorem C1_empty_final_buffer_is_yielded :
  full_pass
    (queryset_iterator_qs (Mock.python3 (Mock.table 0)) (Int 1) GC_COLLECT_BATCH)
    [EvOpen; EvDraw; EvFilter []; EvYield (Batch [])] Completed /\
  full_pass
    (queryset_iterator (Mock.legacy (Mock.table 4)) (Int 2) GC_COLLECT_BATCH false)
    [EvOpen; EvDraw; EvDraw; EvFilter [1; 2]; EvYield (Batch [1; 2]); EvCollect;
     EvDraw; EvDraw; EvFilter [3; 4]; EvYield (Batch [3; 4]); EvCollect;
     EvDraw; EvFilter []; EvYield (Batch [])] Completed.
Proof.
  split; apply (drive_sound 10); vm_compute; reflexivity.
Qed.

(** C2.  With four keys and batch size 2 a pass handles three buffers, of
    sizes 2, 2 and 0: three batches are yielded in BATCHES mode and three
    fetches are made in RECORDS mode, where [ceil(4 / 2)] is 2. *)
Theorem C2_one_buffer_more_than_the_quotient :
  (exists tr,
     full_pass (queryset_iterator_qs (Mock.python3 (Mock.table 4)) (Int 2)
                  GC_COLLECT_BATCH) tr Completed /\
     batches_yielded tr = [[1; 2]; [3; 4]; []]) /\
  (exists tr,
     full_pass (queryset_iterator (Mock.legacy (Mock.table 4)) (Int 2)
                  GC_COLLECT_BATCH true) tr Completed /\
     filter_calls tr = [[1; 2]; [3; 4]; []]).
Proof.
  split; eexists; (split; [apply (drive_sound 10); vm_compute; reflexivity|]);
    vm_compute; reflexivity.
Qed.

(** C5.  [queryset_iterator] accepts the batch size 1.5: the pass over three
    keys raises nothing and fetches the buffers [1, 2] and [3], while
    [queryset_iterator_qs] refuses the same batch size at once. *)
Theorem C5_queryset_iterator_accepts_a_float :
  full_pass
    (queryset_iterator (Mock.legacy (Mock.table 3)) (Float (3 # 2))
       GC_COLLECT_BATCH true)
    [EvOpen; EvDraw; EvDraw; EvFilter [1; 2]; EvIterator [1; 2];
     EvYield (Row (Mock.row_of 1 "1")); EvYield (Row (Mock.row_of 2 "2"));
     EvCollect; EvDraw; EvDraw; EvFilter [3]; EvIterator [3];
     EvYield (Row (Mock.row_of 3 "3")); EvCollect] Completed /\
  full_pass
    (queryset_iterator_qs (Mock.python3 (Mock.table 3)) (Float (3 # 2))
       GC_COLLECT_BATCH)
    [] (Failed (TypeError "batchsize must be an integer")).
Proof.
  split; apply (drive_sound 10); vm_compute; reflexivity.
Qed.

(** C9.  On a Python 3 key iterator, which has [__next__] and no [next],
    [queryset_iterator] with [iterator_return=False] yields the batch of the
    empty buffer and raises [AttributeError], where [queryset_iterator_qs]
    goes through the keys. *)
Theorem C9_entries_differ_on_a_python3_iterator :
  full_pass
    (queryset_iterator (Mock.python3 (Mock.table 3)) (Int 2) GC_COLLECT_BATCH false)
    [EvOpen; EvFilter []; EvYield (Batch [])] (Failed (AttributeError "next")) /\
  full_pass
    (queryset_iterator_qs (Mock.python3 (Mock.table 3)) (Int 2) GC_COLLECT_BATCH)
    [EvOpen; EvDraw; EvDraw; EvFilter [1; 2]; EvYield (Batch [1; 2]); EvCollect;
     EvDraw; EvDraw; EvFilter [3]; EvYield (Batch [3]); EvCollect] Completed.
Proof.
  split; apply (drive_sound 10); vm_compute; reflexivity.
Qed.

(** C8, as stated, fails on [Mock.keys_break]: the error of its key
    enumeration does not surface at once: the first [next()] fetches the buffer [1] and yields its row. *)
Lemma C8_counterexample :
  ending (pk_iterator Mock.keys_break) = Some "boom"%string /\
  (exists g,
     resume (queryset_iterator Mock.keys_break (Int 2) GC_COLLECT_BATCH true)
       = Some ([EvOpen; EvDraw; EvDraw; EvFilter [1]; EvIterator [1]],
               Yielded (Row (Mock.row_of 1 "1")), g)) /\
  ~ surfaces_at_once
      (queryset_iterator Mock.keys_break (Int 2) GC_COLLECT_BATCH true)
      "boom"%string.
Proof.
  split; [done|]. split; [eexists; vm_compute; reflexivity|].
  intros [tr H].
  assert (H' : full_pass
    (queryset_iterator Mock.keys_break (Int 2) GC_COLLECT_BATCH true)
    [EvOpen; EvDraw; EvDraw; EvFilter [1]; EvIterator [1];
     EvYield (Row (Mock.row_of 1 "1")); EvCollect]
    (Failed (SourceError "boom"%string)))
    by (apply (drive_sound 10); vm_compute; reflexivity).
  destruct (full_pass_det _ _ _ _ _ H H') as [Htr _].
  apply (f_equal last) in Htr. rewrite last_snoc in Htr. discriminate.
Qed.

Lemma mock_serves :
  serves Mock.row_pk (Mock.table 3) (Mock.legacy (Mock.table 3)).
Proof.
  split; [|split; [done|split; [done|done]]].
  change (NoDup [1; 2; 3]). compute_done.
Defined.

Lemma records_mode_covers_a_source_with_next_witness :
  serves Mock.row_pk (Mock.table 3) (Mock.legacy (Mock.table 3)) /\
  exists tr,
    full_pass (queryset_iterator (Mock.legacy (Mock.table 3)) (Int 2)
                 GC_COLLECT_BATCH true) tr Completed /\
    rows_yielded tr ≡ₚ Mock.table 3 /\
    concat (filter_calls tr) = [1; 2; 3].
Proof.
  split; [apply mock_serves|].
  destruct (records_mode_covers_a_source_with_next Mock.row_pk (Mock.table 3)
              (Mock.legacy (Mock.table 3)) 2 GC_COLLECT_BATCH
              ltac:(lia) eq_refl mock_serves)
    as (tr & H1 & H2 & H3 & _).
  exists tr. repeat split; assumption.
Defined.

Lemma python3_serves :
  serves Mock.row_pk (Mock.table 3) (Mock.python3 (Mock.table 3)).
Proof.
  split; [|split; [done|split; [done|done]]].
  change (NoDup [1; 2; 3]). compute_done.
Defined.

Lemma C3_witness :
  serves Mock.row_pk (Mock.table 3) (Mock.python3 (Mock.table 3)) /\
  exists tr,
    full_pass (queryset_iterator (Mock.python3 (Mock.table 3)) (Int 2)
                 GC_COLLECT_BATCH true) tr (Failed (AttributeError "next")) /\
    rows_yielded tr = [] /\
    ~ rows_yielded tr ≡ₚ Mock.table 3.
Proof.
  split; [apply python3_serves|].
  destruct (C3_records_mode_misses_a_python3_source Mock.row_pk (Mock.table 3)
              (Mock.python3 (Mock.table 3)) 2 GC_COLLECT_BATCH
              ltac:(lia) eq_refl python3_serves)
    as (tr & H1 & _ & H3 & H4 & _).
  exists tr. split; [exact H1|]. split; [exact H3|].
  apply H4. discriminate.
Defined.

Lemma C4_witness :
  0 < 1 /\
  started (queryset_iterator (Mock.legacy (Mock.table 3)) (Int 0)
             GC_COLLECT_BATCH true) = false /\
  exists g,
    resume (queryset_iterator (Mock.legacy (Mock.table 3)) (Int 0)
              GC_COLLECT_BATCH true)
      = Some ([], Raised (ValueError "Batch size must be above 0"), g) /\
    started g = true.
Proof.
  split; [lia|].
  apply (C4_batchsize_below_one_fails_at_first_next Records
           (Mock.legacy (Mock.table 3)) 0 GC_COLLECT_BATCH).
  lia.
Defined.

Lemma mock_reliable has_next has_dunder_next rs :
  reliable (Mock.queryset_mock has_next has_dunder_next rs).
Proof. by split. Defined.

Lemma C6_witness :
  reliable (Mock.python3 (Mock.table 4)) /\
  exists tr,
    full_pass (queryset_iterator_qs (Mock.python3 (Mock.table 4)) (Int 2)
                 GC_COLLECT_BATCH) tr Completed /\
    collects tr = 2%nat.
Proof.
  split; [apply mock_reliable|].
  destruct (C6_collect_once_after_each_nonempty_batch BatchesQs
              (Mock.python3 (Mock.table 4)) 2 ltac:(lia) eq_refl
              (mock_reliable _ _ _))
    as (H1 & _ & H3 & _).
  eexists. split; [exact H1|]. rewrite H3. reflexivity.
Defined.

Lemma C7_witness :
  (exists tr,
     full_pass (queryset_iterator (Mock.python3 (Mock.table 0)) (Int 5)
                  GC_COLLECT_END true) tr (Failed (AttributeError "next")) /\
     collects tr = 0%nat) /\
  (exists tr,
     full_pass (queryset_iterator (Mock.python3 (Mock.table 3)) (Int 2)
                  GC_COLLECT_END false) tr (Failed (AttributeError "next")) /\
     collects tr = 0%nat) /\
  (exists tr,
     full_pass (queryset_iterator_qs (Mock.python3 (Mock.table 3)) (Int 2)
                  GC_COLLECT_END) (tr ++ [EvCollect]) Completed /\
     collects tr = 0%nat).
Proof.
  destruct (C7_queryset_iterator_never_collects_on_a_python3_iterator
              (Mock.python3 (Mock.table 0)) 5 true
              ltac:(lia) eq_refl eq_refl (mock_reliable _ _ _))
    as [(tr0 & H0 & C0 & _) _].
  destruct (C7_queryset_iterator_never_collects_on_a_python3_iterator
              (Mock.python3 (Mock.table 3)) 2 false
              ltac:(lia) eq_refl eq_refl (mock_reliable _ _ _))
    as [(tr1 & H1 & C1 & _) (tr2 & H2 & C2)].
  split; [by exists tr0|]. split; [by exists tr1|]. by exists tr2.
Defined.

Lemma C8_witness :
  full_pass (queryset_iterator Mock.keys_break (Int 2) GC_COLLECT_BATCH true)
    [EvOpen; EvDraw; EvDraw; EvFilter [1]; EvIterator [1];
     EvYield (Row (Mock.row_of 1 "1")); EvCollect]
    (Failed (SourceError "boom"%string)) /\
  full_pass (queryset_iterator Mock.fetch_breaks (Int 2) GC_COLLECT_BATCH true)
    [EvOpen; EvDraw; EvDraw; EvFilter [1; 2]; EvIterator [1; 2];
     EvYield (Row (Mock.row_of 1 "1")); EvYield (Row (Mock.row_of 2 "2"));
     EvCollect; EvDraw; EvDraw; EvFilter [3; 4]; EvIterator [3; 4]]
    (Failed (SourceError "lost"%string)).
Proof.
  split.
  - destruct (C8_source_errors_end_the_pass Mock.keys_break 2 GC_COLLECT_BATCH
                "boom"%string ltac:(lia) eq_refl) as [H _].
    destruct (H true eq_refl (fun _ => eq_refl)) as [H1 _]. exact H1.
  - destruct (C8_source_errors_end_the_pass Mock.fetch_breaks 2 GC_COLLECT_BATCH
                "lost"%string ltac:(lia) eq_refl) as [_ H].
    apply (H 1%nat [3; 4] eq_refl); [|reflexivity].
    intros [|j] bj Hj Hbj; [|lia].
    injection Hbj as <-. reflexivity.
Defined.

Lemma C10_witness :
  isinstance_int (Float (1 # 2)) = false /\
  (exists g,
     resume (queryset_iterator_qs (Mock.python3 (Mock.table 3)) (Float (1 # 2))
               GC_COLLECT_BATCH)
       = Some ([], Raised (ValueError "Batch size must be above 0"), g)) /\
  (exists g,
     resume (queryset_iterator_qs (Mock.python3 (Mock.table 3)) (Float (3 # 2))
               GC_COLLECT_BATCH)
       = Some ([], Raised (TypeError "batchsize must be an integer"), g)).
Proof.
  split; [reflexivity|]. split.
  - apply (C10_size_check_precedes_type_check (Mock.python3 (Mock.table 3))
             (Float (1 # 2)) GC_COLLECT_BATCH eq_refl).
    reflexivity.
  - apply (C10_size_check_precedes_type_check (Mock.python3 (Mock.table 3))
             (Float (3 # 2)) GC_COLLECT_BATCH eq_refl).
    reflexivity.
Defined.

(** * Further properties of the two generators *)

(** ** Invariants of single steps *)

Section Steps.
Context {key record err : Type}.

Local Abbreviation event := (event (key:=key) (record:=record)).
Local Abbreviation result := (result (key:=key) (record:=record) (err:=err)).
Local Abbreviation generator := (generator (key:=key) (record:=record) (err:=err)).
Local Abbreviation queryset := (queryset (key:=key) (record:=record) (err:=err)).
Local Abbreviation key_iterator := (key_iterator (key:=key) (err:=err)).

Implicit Types (qs : queryset) (g : generator) (tr evs : list event).

Lemma holds_prepend (P P' : list event -> outcome -> generator -> Prop)
    evs (r : result) :
  (forall evs' o g, P evs' o g -> P' (evs ++ evs') o g) ->
  holds P r -> holds P' (prepend evs r).
Proof. intros H. destruct r as [[[evs' o] g]|]; simpl; auto. Qed.

(** An invariant of every step is an invariant of the pass. *)
Lemma pass_invariant (I : generator -> Prop) (E : list event -> Prop)
    (r : result) tr fin :
  E [] ->
  (forall evs1 evs2, E evs1 -> E evs2 -> E (evs1 ++ evs2)) ->
  (forall g, I g -> holds (fun evs o g' =>
     E evs /\ I g' /\ match o with Yielded x => E [EvYield x] | _ => True end)
     (resume g)) ->
  holds (fun evs o g' =>
     E evs /\ I g' /\ match o with Yielded x => E [EvYield x] | _ => True end) r ->
  pass r tr fin -> E tr.
Proof.
  intros Hnil Happ Hstep Hr Hpass.
  induction Hpass as [evs g|evs e g|evs x g tr fin _ IH]; simpl in Hr.
  - apply Hr.
  - apply Hr.
  - destruct Hr as (He & Hg & Hx). apply Happ; [done|].
    change (EvYield x :: tr) with ([EvYield x] ++ tr). apply Happ; [done|].
    apply IH. by apply Hstep.
Qed.

(** The drawing loop only draws. *)
Lemma fill_draws_only (bs : value) m (it : key_iterator) rem buf :
  Forall (fun ev => ev = EvDraw)
    (fill (record:=record) bs m it rem buf).1.1.1.
Proof.
  revert buf. induction rem as [|k rem IH]; intros buf; simpl.
  - destruct (int_lt _ bs) as [e|[|]]; simpl; [done| |done].
    destruct (answers m it); simpl; [|done]. by repeat constructor.
  - destruct (int_lt _ bs) as [e|[|]]; simpl; [done| |done].
    destruct (answers m it); simpl; [|done].
    specialize (IH (buf ++ [k])).
    destruct (fill bs m it rem (buf ++ [k])) as [[[evs rest] b'] c]. simpl in *.
    by constructor.
Qed.

Lemma collects_draws evs :
  Forall (fun ev : event => ev = EvDraw) evs -> collects evs = 0%nat.
Proof.
  induction 1 as [|ev evs -> _ IH]; [done|]. exact IH.
Qed.

Lemma iterator_calls_draws evs :
  Forall (fun ev : event => ev = EvDraw) evs -> iterator_calls evs = 0%nat.
Proof.
  induction 1 as [|ev evs -> _ IH]; [done|]. exact IH.
Qed.

Lemma iterator_calls_app tr1 tr2 :
  iterator_calls (tr1 ++ tr2) = (iterator_calls tr1 + iterator_calls tr2)%nat.
Proof. unfold iterator_calls. by rewrite List.filter_app, length_app. Qed.

(** *** No collection outside the two policies *)

Section NoPolicy.
Variable gc : Z.
Hypothesis Hbatch : gc <> GC_COLLECT_BATCH.
Hypothesis Hend : gc <> GC_COLLECT_END.

Local Abbreviation silent :=
  (fun (evs : list event) (o : outcome (err:=err)) (g : generator) =>
     collects evs = 0%nat /\ gc_collect_of g = gc).

Lemma silent_prepend evs (r : result) :
  collects evs = 0%nat -> holds silent r -> holds silent (prepend evs r).
Proof.
  intros Hevs. apply holds_prepend. intros evs' o g [H1 H2].
  split; [|done]. rewrite collects_app. lia.
Qed.

Lemma collect_batch_silent (done : generator) again (it : key_iterator) buf c :
  gc_collect_of done = gc ->
  holds silent (again it) ->
  holds silent (collect_batch gc done again it buf c).
Proof.
  intros Hdone Hagain. unfold collect_batch. apply silent_prepend.
  - destruct (Z.eqb_spec gc GC_COLLECT_BATCH); done.
  - destruct c; simpl; [done| |done].
    destruct (Z.eqb_spec gc GC_COLLECT_END); done.
Qed.

Lemma for_result_silent qs bs ir again (it : key_iterator) buf rs fails c :
  holds silent (again it) ->
  holds silent (for_result qs bs gc ir again it buf rs fails c).
Proof.
  intros Hagain. destruct rs as [|r rs]; simpl; [|done].
  destruct fails; [done|]. by apply collect_batch_silent.
Qed.

Lemma finally_qi_silent qs bs ir again (it : key_iterator) buf c :
  holds silent (again it) ->
  holds silent (finally_qi qs bs gc ir again it buf c).
Proof.
  intros Hagain. unfold finally_qi. destruct ir; [|done].
  apply silent_prepend; [done|]. by apply for_result_silent.
Qed.

Lemma loop_qi_silent qs bs ir fuel (it : key_iterator) :
  holds silent (loop_qi qs bs gc ir fuel it).
Proof.
  revert it. induction fuel as [|fuel IH]; intros it; [done|]. simpl.
  pose proof (fill_draws_only bs next it (pending it) []) as Hd.
  destruct (fill bs next it (pending it) []) as [[[evs rest] buf] c].
  apply silent_prepend; [by apply collects_draws|].
  apply finally_qi_silent, IH.
Qed.

Lemma loop_qs_silent qs bs (it : key_iterator) :
  holds silent (loop_qs qs bs gc it).
Proof.
  unfold loop_qs.
  pose proof (fill_draws_only bs dunder_next it (pending it) []) as Hd.
  destruct (fill bs dunder_next it (pending it) []) as [[[evs rest] buf] c].
  apply silent_prepend; [by apply collects_draws|]. done.
Qed.

Lemma resume_silent g :
  gc_collect_of g = gc -> holds silent (resume g).
Proof.
  destruct g as [qs bs gc' ir f|qs bs gc' f]; simpl; intros ->.
  - destruct f as [|it buf rs fails c|it buf c|]; simpl.
    + destruct (lt_int bs 1) as [e|[|]]; try done.
      apply silent_prepend; [done|]. apply loop_qi_silent.
    + apply for_result_silent, loop_qi_silent.
    + apply collect_batch_silent; [done|]. apply loop_qi_silent.
    + done.
  - destruct f as [|it buf c|]; simpl.
    + destruct (lt_int bs 1) as [e|[|]]; try done.
      destruct (isinstance_int bs); [|done].
      apply silent_prepend; [done|]. apply loop_qs_silent.
    + apply collect_batch_silent; [done|]. apply loop_qs_silent.
    + done.
Qed.
End NoPolicy.

(** X1.  When [gc_collect] is neither [GC_COLLECT_BATCH] nor
    [GC_COLLECT_END], no pass of either generator ever calls [gc.collect()]:
    whatever the queryset, the batch size and the way the pass ends. *)
Theorem no_policy_never_collects g tr fin :
  gc_collect_of g <> GC_COLLECT_BATCH ->
  gc_collect_of g <> GC_COLLECT_END ->
  full_pass g tr fin ->
  collects tr = 0%nat.
Proof.
  intros H1 H2 Hpass.
  apply (pass_invariant (fun g' => gc_collect_of g' = gc_collect_of g)
           (fun tr => collects tr = 0%nat) (resume g) tr fin); try done.
  - intros evs1 evs2 E1 E2. rewrite collects_app. lia.
  - intros g' Hg'.
    pose proof (resume_silent (gc_collect_of g) H1 H2 g' Hg') as H.
    destruct (resume g') as [[[evs o] g'']|]; simpl in *; [|done].
    destruct H. repeat split; try done. by destruct o.
  - pose proof (resume_silent (gc_collect_of g) H1 H2 g eq_refl) as H.
    destruct (resume g) as [[[evs o] g'']|]; simpl in *; [|done].
    destruct H. repeat split; try done. by destruct o.
Qed.
(** *** Batches are handed over unread *)

Local Abbreviation unread :=
  (fun (evs : list event) (o : outcome (err:=err)) (g : generator) =>
     (iterator_calls evs = 0%nat /\ rows_yielded evs = []) /\
     yields_batches g = true /\
     match o with
     | Yielded x => iterator_calls [EvYield x] = 0%nat /\ rows_yielded [EvYield x] = []
     | _ => True
     end).

Lemma unread_prepend evs (r : result) :
  Forall (fun ev : event => ev = EvDraw) evs \/ evs = [EvOpen] \/ evs = [] \/ evs = [EvCollect] ->
  holds unread r -> holds unread (prepend evs r).
Proof.
  intros Hevs. apply holds_prepend. intros evs' o g ([H1 H2] & H3 & H4).
  repeat split; try done.
  - rewrite iterator_calls_app, H1.
    destruct Hevs as [H|[-> |[-> | ->]]]; try done.
    by rewrite iterator_calls_draws.
  - rewrite rows_yielded_app, H2.
    destruct Hevs as [H|[-> |[-> | ->]]]; try done.
    induction H as [|ev evs0 -> _ IH]; [done|]. exact IH.
Qed.

Lemma collect_batch_unread gc (done : generator) again (it : key_iterator) buf c :
  yields_batches done = true ->
  holds unread (again it) ->
  holds unread (collect_batch gc done again it buf c).
Proof.
  intros Hdone Hagain. unfold collect_batch. apply unread_prepend.
  - destruct ((gc =? GC_COLLECT_BATCH) && truthy buf); auto.
  - destruct c; simpl; [done| |done].
    destruct (gc =? GC_COLLECT_END); done.
Qed.

Lemma loop_qi_unread qs bs gc fuel (it : key_iterator) :
  holds unread (loop_qi qs bs gc false fuel it).
Proof.
  destruct fuel as [|fuel]; [done|]. simpl.
  pose proof (fill_draws_only bs next it (pending it) []) as Hd.
  destruct (fill bs next it (pending it) []) as [[[evs rest] buf] c].
  apply (unread_prepend evs (Some ([EvFilter buf], Yielded (Batch buf), _)));
    [by left|]. done.
Qed.

Lemma loop_qs_unread qs bs gc (it : key_iterator) :
  holds unread (loop_qs qs bs gc it).
Proof.
  unfold loop_qs.
  pose proof (fill_draws_only bs dunder_next it (pending it) []) as Hd.
  destruct (fill bs dunder_next it (pending it) []) as [[[evs rest] buf] c].
  apply (unread_prepend evs (Some ([EvFilter buf], Yielded (Batch buf), _)));
    [by left|]. done.
Qed.

Lemma resume_unread g :
  yields_batches g = true -> holds unread (resume g).
Proof.
  destruct g as [qs bs gc ir f|qs bs gc f]; simpl.
  - destruct f as [|it buf rs fails c|it buf c|]; try done;
      destruct ir; try done; intros _; simpl.
    + destruct (lt_int bs 1) as [e|[|]]; try done.
      apply unread_prepend; [auto|]. apply loop_qi_unread.
    + apply collect_batch_unread; [done|]. apply loop_qi_unread.
  - intros _. destruct f as [|it buf c|]; simpl.
    + destruct (lt_int bs 1) as [e|[|]]; try done.
      destruct (isinstance_int bs); [|done].
      apply unread_prepend; [auto|]. apply loop_qs_unread.
    + apply collect_batch_unread; [done|]. apply loop_qs_unread.
    + done.
Qed.

(** X2.  The two batch entries never read a filter result: in any pass of
    [queryset_iterator_qs], or of [queryset_iterator] with
    [iterator_return=False], [.iterator()] is never called and no row is
    yielded, whatever the queryset and the batch size. *)
Theorem batches_are_never_read qs (bs : value) gc v tr fin :
  v <> Records ->
  full_pass (call v qs bs gc) tr fin ->
  iterator_calls tr = 0%nat /\ rows_yielded tr = [].
Proof.
  intros Hv Hpass.
  assert (Hg : yields_batches (call v qs bs gc) = true) by by destruct v.
  apply (pass_invariant (fun g' => yields_batches g' = true)
           (fun tr => iterator_calls tr = 0%nat /\ rows_yielded tr = [])
           (resume (call v qs bs gc)) tr fin); try done.
  - intros evs1 evs2 [E1 E1'] [E2 E2'].
    rewrite iterator_calls_app, rows_yielded_app, E1, E1', E2, E2'. done.
  - intros g' Hg'. pose proof (resume_unread g' Hg') as H.
    by destruct (resume g') as [[[evs o] g'']|].
  - pose proof (resume_unread _ Hg) as H.
    by destruct (resume (call v qs bs gc)) as [[[evs o] g'']|].
Qed.
End Steps.

(** ** What a full pass asks of the queryset *)

Section Asked.
Context {key record err : Type}.

Local Abbreviation event := (event (key:=key) (record:=record)).
Local Abbreviation result := (result (key:=key) (record:=record) (err:=err)).
Local Abbreviation generator := (generator (key:=key) (record:=record) (err:=err)).
Local Abbreviation queryset := (queryset (key:=key) (record:=record) (err:=err)).
Local Abbreviation key_iterator := (key_iterator (key:=key) (err:=err)).

Implicit Types (qs : queryset) (v : entry) (tr : list event) (keys : list key).

Lemma buffers_lookup b keys i buf :
  (1 <= b)%nat ->
  buffers b keys !! i = Some buf ->
  buf = buffer_at b keys i /\
  (i <= length keys / b)%nat /\
  ((i < length keys / b)%nat -> length buf = b) /\
  (i = (length keys / b)%nat -> length buf = (length keys mod b)%nat).
Proof.
  intros Hb Hi.
  assert (Hlt : (i < S (length keys / b))%nat).
  { rewrite <- length_buffers. by eapply lookup_lt_Some. }
  split; [|split; [lia|]].
  - unfold buffers in Hi. rewrite list_lookup_fmap in Hi.
    rewrite lookup_seq_lt in Hi by done. simpl in Hi. by injection Hi as <-.
  - destruct (buffers_sizes b keys Hb) as (full & l & Heq & Hlen & Hall & Hl).
    rewrite Heq in Hi. split.
    + intros Hi'. rewrite lookup_app_l in Hi by lia.
      by eapply (Forall_lookup_1 _ _ _ _ Hall).
    + intros ->. rewrite lookup_app_r in Hi by lia.
      rewrite Hlen, Nat.sub_diag in Hi. simpl in Hi. by injection Hi as <-.
Qed.

Lemma buffers_bounded b keys buf :
  (1 <= b)%nat -> buf ∈ buffers b keys -> (length buf <= b)%nat.
Proof.
  intros Hb [i Hi]%list_elem_of_lookup.
  destruct (buffers_lookup b keys i buf Hb Hi) as (_ & Hle & Hfull & Hlast).
  destruct (decide (i = (length keys / b)%nat)) as [->|Hne].
  - rewrite Hlast by done. pose proof (Nat.mod_upper_bound (length keys) b). lia.
  - rewrite Hfull; lia.
Qed.

Lemma reading_of_pass v qs gc b (bufs : list (list key)) (tail : list event) :
  tail = [] \/ tail = [EvCollect] ->
  filter_calls (EvOpen :: concat (segment v qs gc b <$> bufs) ++ tail) = bufs /\
  rows_yielded (EvOpen :: concat (segment v qs gc b <$> bufs) ++ tail)
    = match v with
      | Records => concat ((fun buf => rows (filter_pk_in qs buf)) <$> bufs)
      | _ => []
      end /\
  batches_yielded (EvOpen :: concat (segment v qs gc b <$> bufs) ++ tail)
    = match v with Records => [] | _ => bufs end /\
  draws (EvOpen :: concat (segment v qs gc b <$> bufs) ++ tail)
    = sum_list ((fun buf => length buf + (if (length buf <? b)%nat then 1 else 0))%nat
                  <$> bufs).
Proof.
  intros Htail.
  destruct (segments_reading v qs gc b bufs) as (H1 & H2 & H3 & _ & H5).
  cbv zeta in H1, H2, H3, H5.
  change (EvOpen :: ?l) with ([EvOpen] ++ l).
  rewrite !filter_calls_app, !rows_yielded_app, !batches_yielded_app, !draws_app.
  rewrite H1, H2, H3, H5.
  destruct Htail as [-> | ->]; simpl; rewrite ?app_nil_r;
    repeat split; try done; lia.
Qed.

(** X3.  A full pass over [n] keys with batch size [b >= 1] passes to
    [filter] the buffers [keys[i*b:(i+1)*b]] for [i = 0 .. n/b], in order:
    [n/b + 1] calls, the first [n/b] with exactly [b] keys and the last with
    [n mod b] keys; the calls that hold a key number [ceil(n/b)]; and the key
    iterator is asked [n + 1] times. *)
Theorem pass_fetches_the_buffers v qs z gc :
  1 <= z ->
  answers (method_of v) (pk_iterator qs) = true ->
  reliable qs ->
  let b := Z.to_nat z in
  let keys := pending (pk_iterator qs) in
  exists tr,
    full_pass (call v qs (Int z) gc) tr Completed /\
    filter_calls tr = buffer_at b keys <$> seq 0 (S (length keys / b)) /\
    (forall i buf, filter_calls tr !! i = Some buf ->
       ((i < length keys / b)%nat -> length buf = b) /\
       (i = (length keys / b)%nat -> length buf = (length keys mod b)%nat)) /\
    length (List.filter truthy (filter_calls tr))
      = (length keys / b + (if (length keys mod b =? 0)%nat then 0 else 1))%nat /\
    draws tr = S (length keys).
Proof.
  intros Hz Hm Hrel b keys.
  assert (Hb : (1 <= b)%nat) by (subst b; lia).
  pose proof (full_pass_reliable v qs z gc Hz Hm Hrel) as Hpass.
  fold b keys in Hpass.
  remember (buffers b keys) as bufs eqn:Hbufs.
  destruct (reading_of_pass v qs gc b bufs
              (if gc =? GC_COLLECT_END then [EvCollect] else []))
    as (Hc & _ & _ & Hd); [destruct (gc =? GC_COLLECT_END); auto|].
  eexists. split; [exact Hpass|]. rewrite Hc, Hd. subst bufs.
  split; [done|]. split; [|split].
  - intros i buf Hi.
    by destruct (buffers_lookup b keys i buf Hb Hi) as (_ & _ & ? & ?).
  - by apply buffers_nonempty.
  - by apply buffers_draws.
Qed.


(** X5.  In RECORDS mode the rows come batch by batch: the rows yielded by
    a full pass are, in this order, the rows that the fetch of each buffer
    gives, buffer after buffer; a key whose row the fetch does not give is
    passed over. *)
Theorem rows_come_buffer_by_buffer qs z gc :
  1 <= z ->
  has_next (pk_iterator qs) = true ->
  reliable qs ->
  exists tr,
    full_pass (queryset_iterator qs (Int z) gc true) tr Completed /\
    rows_yielded tr
      = concat ((fun buf => rows (filter_pk_in qs buf))
                  <$> filter_calls tr) /\
    batches_yielded tr = [].
Proof.
  intros Hz Hm Hrel.
  pose proof (full_pass_reliable Records qs z gc Hz Hm Hrel) as Hpass.
  remember (buffers (Z.to_nat z) (pending (pk_iterator qs))) as bufs.
  destruct (reading_of_pass Records qs gc (Z.to_nat z) bufs
              (if gc =? GC_COLLECT_END then [EvCollect] else []))
    as (Hc & Hr & Hy & _); [destruct (gc =? GC_COLLECT_END); auto|].
  eexists. split; [exact Hpass|]. by rewrite Hc, Hr, Hy.
Qed.

Lemma fmap_concat {A B} (f : A -> B) (ls : list (list A)) :
  f <$> concat ls = concat ((fun l : list A => f <$> l) <$> ls).
Proof.
  induction ls as [|l ls IH]; [done|]. simpl. by rewrite fmap_app, IH.
Qed.

(** X19.  The pass keeps the order of the key sequence as far as the
    fetches do.  In RECORDS mode, over a source that raises nothing: if the
    fetch of every buffer of the pass gives the rows of its keys in the
    order of the keys, the rows yielded are the rows of the keys of the
    source in the order of the key sequence, for every batch size of at
    least 1. *)
Theorem rows_follow_the_key_order (row_for : key -> record) qs z gc :
  1 <= z ->
  has_next (pk_iterator qs) = true ->
  reliable qs ->
  (forall buf, buf ∈ buffers (Z.to_nat z) (pending (pk_iterator qs)) ->
     rows (filter_pk_in qs buf) = row_for <$> buf) ->
  exists tr,
    full_pass (queryset_iterator qs (Int z) gc true) tr Completed /\
    rows_yielded tr = row_for <$> pending (pk_iterator qs).
Proof.
  intros Hz Hm Hrel Hrows.
  assert (Hb : (1 <= Z.to_nat z)%nat) by lia.
  pose proof (full_pass_reliable Records qs z gc Hz Hm Hrel) as Hpass.
  pose proof (concat_buffers (Z.to_nat z) (pending (pk_iterator qs)) Hb) as Hcat.
  remember (buffers (Z.to_nat z) (pending (pk_iterator qs))) as bufs.
  destruct (reading_of_pass Records qs gc (Z.to_nat z) bufs
              (if gc =? GC_COLLECT_END then [EvCollect] else []))
    as (_ & Hr & _); [destruct (gc =? GC_COLLECT_END); auto|].
  eexists. split; [exact Hpass|]. rewrite Hr, <- Hcat, fmap_concat.
  f_equal. apply list_fmap_ext. intros i buf Hi.
  apply Hrows. by apply list_elem_of_lookup_2 in Hi.
Qed.

(** ** Errors *)

(** X6.  On a key iterator that lacks the method the entry calls
    ([next] for [queryset_iterator], [__next__] for
    [queryset_iterator_qs]), a pass draws no key: the [finally] clause runs
    once for the empty buffer, which is passed to [filter] and goes through
    the yield step, nothing is collected, and the pass ends with
    [AttributeError]. *)
Theorem missing_method_ends_in_attribute_error v qs z gc :
  1 <= z ->
  answers (method_of v) (pk_iterator qs) = false ->
  fetch_failure v qs [] = None ->
  let tr := EvOpen :: EvFilter [] :: yield_step v qs [] in
  full_pass (call v qs (Int z) gc) tr
    (Failed (AttributeError (method_name (method_of v)))) /\
  draws tr = 0%nat /\ collects tr = 0%nat /\ filter_calls tr = [[]].
Proof.
  intros Hz Hm Hfetch tr.
  split.
  - by apply full_pass_missing_method.
  - subst tr.
    destruct (yield_step_reading v qs ([] : list key)) as (Y1 & _ & _ & Y4 & Y5).
    change (EvOpen :: EvFilter [] :: ?l) with ([EvOpen; EvFilter []] ++ l).
    rewrite draws_app, collects_app, filter_calls_app, Y1, Y4, Y5. done.
Qed.

(** X7.  When the key enumeration raises and the fetch of the buffer that
    was being filled raises too, the consumer gets the error of the fetch:
    the error of the key enumeration is not what the pass ends with. *)
Theorem fetch_error_masks_enumeration_error qs z gc e1 e2 :
  1 <= z ->
  has_next (pk_iterator qs) = true ->
  ending (pk_iterator qs) = Some e1 ->
  let b := Z.to_nat z in
  let keys := pending (pk_iterator qs) in
  (forall i, (i < length keys / b)%nat ->
     failure (filter_pk_in qs (buffer_at b keys i)) = None) ->
  failure (filter_pk_in qs (buffer_at b keys (length keys / b))) = Some e2 ->
  exists tr,
    full_pass (queryset_iterator qs (Int z) gc true) tr (Failed (SourceError e2)) /\
    draws tr = S (length keys) /\
    last (filter_calls tr) = Some (buffer_at b keys (length keys / b)).
Proof.
  intros Hz Hm Hend b keys Hbefore Hlast.
  assert (Hb : (1 <= b)%nat) by (subst b; lia).
  set (i := (length keys / b)%nat) in *.
  assert (Hi : buffers b keys !! i = Some (buffer_at b keys i)).
  { unfold buffers. rewrite list_lookup_fmap, lookup_seq_lt by lia. done. }
  pose proof (full_pass_fetch_fails qs z gc i (buffer_at b keys i) e2 Hz Hm Hi)
    as Hpass.
  eexists. split.
  { apply Hpass; [|done]. intros j bj Hj Hbj.
    destruct (buffers_lookup b keys j bj Hb Hbj) as (-> & _).
    by apply Hbefore. }
  destruct (buffers_sizes b keys Hb) as (full & l & Heq & Hlen & Hall & Hl).
  fold b keys. rewrite Heq in Hi |- *.
  assert (Htake : take i (full ++ [l]) = full).
  { rewrite take_app_le by lia. apply take_ge. lia. }
  rewrite lookup_app_r, Hlen in Hi by lia.
  replace (i - length keys / b)%nat with 0%nat in Hi by (subst i; lia).
  simpl in Hi. injection Hi as Hi.
  rewrite Htake, <- Hi.
  destruct (segments_reading Records qs gc b full) as (S1 & _ & _ & _ & S5).
  cbv zeta in S1, S5.
  destruct (draws_for_reading (record:=record) b l) as (D1 & _ & _ & _ & D5).
  destruct (yield_step_reading Records qs l) as (Y1 & _ & _ & _ & Y5).
  unfold before_collect.
  change (EvOpen :: ?t) with ([EvOpen] ++ t).
  change (EvFilter l :: ?t) with ([EvFilter l] ++ t).
  rewrite !draws_app, !filter_calls_app, S1, S5, D1, D5, Y1, Y5.
  split.
  - change (draws [EvOpen]) with 0%nat. change (draws [EvFilter l]) with 0%nat.
    pose proof (buffers_draws b keys Hb) as Hsum. rewrite Heq in Hsum.
    rewrite fmap_app, sum_list_with_app in Hsum. simpl in Hsum.
    pose proof (Nat.mod_upper_bound (length keys) b ltac:(lia)).
    destruct (Nat.ltb_spec (length l) b); lia.
  - simpl. rewrite ?app_nil_r. apply last_snoc.
Qed.

(** X8.  On a key iterator that has both [next] and [__next__],
    [queryset_iterator] with [iterator_return=False] and
    [queryset_iterator_qs] do the same for every [int] batch size: every
    full pass of one, with its events, yields and way of ending, is a full
    pass of the other. *)
Theorem batch_entries_agree_on_both_spellings qs z gc tr fin :
  has_next (pk_iterator qs) = true ->
  has_dunder_next (pk_iterator qs) = true ->
  (full_pass (queryset_iterator qs (Int z) gc false) tr fin <->
   full_pass (queryset_iterator_qs qs (Int z) gc) tr fin) /\
  exists tr' fin', full_pass (queryset_iterator_qs qs (Int z) gc) tr' fin'.
Proof.
  intros H1 H2. split; [by apply batch_entries_agree|].
  destruct (Z.ltb_spec z 1) as [Hlt|Hge].
  - assert (Hz : lt_int (err:=err) (Int z) 1 = inr true)
      by (simpl; f_equal; lia).
    destruct (resume_below_one BatchesQs qs (Int z) gc Hz) as [g Hg].
    exists [], (Failed (ValueError "Batch size must be above 0")).
    unfold full_pass. simpl call in Hg. rewrite Hg. constructor.
  - eexists _, _. apply (full_pass_played BatchesQs qs z gc Hge H2).
Qed.
End Asked.

(** ** What has happened when an element is received *)

Section Received.
Context {key record err : Type}.

Local Abbreviation event := (event (key:=key) (record:=record)).
Local Abbreviation result := (result (key:=key) (record:=record) (err:=err)).
Local Abbreviation generator := (generator (key:=key) (record:=record) (err:=err)).
Local Abbreviation queryset := (queryset (key:=key) (record:=record) (err:=err)).
Local Abbreviation key_iterator := (key_iterator (key:=key) (err:=err)).

Implicit Types (qs : queryset) (v : entry) (tr past : list event)
  (keys : list key) (Q : list event -> item (key:=key) (record:=record) -> Prop).

Lemma at_each_yield_app Q past s t :
  at_each_yield Q past s ->
  at_each_yield Q (past ++ s) t ->
  at_each_yield Q past (s ++ t).
Proof.
  intros Hs Ht tr1 x tr2 Heq.
  apply List.app_eq_app in Heq as [l [[-> Hl]|[-> ->]]].
  - destruct l as [|y l].
    + simpl in Hl. subst t. specialize (Ht [] x tr2 eq_refl).
      by rewrite !app_nil_r in Ht.
    + injection Hl as <- ->. by eapply Hs.
  - rewrite app_assoc. by eapply Ht.
Qed.

Lemma at_each_yield_none Q past s :
  (forall x, EvYield x ∉ s) -> at_each_yield Q past s.
Proof.
  intros H tr1 x tr2 ->. destruct (H x).
  apply elem_of_app. right. by left.
Qed.

Lemma at_each_yield_rows Q (rs : list record) : forall past,
  (forall k r, rs !! k = Some r ->
     Q (past ++ ((fun r => EvYield (Row r)) <$> take k rs)) (Row r)) ->
  at_each_yield Q past ((fun r => EvYield (Row r)) <$> rs).
Proof.
  induction rs as [|r rs IH]; intros past H tr1 x tr2 Heq.
  - by destruct tr1.
  - destruct tr1 as [|ev tr1]; simpl in Heq.
    + injection Heq as <- _. apply (H 0%nat r eq_refl).
    + injection Heq as <- Heq.
      rewrite (cons_middle _ past tr1), app_assoc.
      eapply (IH (past ++ [EvYield (Row r)])); [|exact Heq].
      intros k r' Hk. rewrite <- app_assoc. apply (H (S k) r' Hk).
Qed.

Lemma draws_for_no_yield b (buf : list key) x :
  EvYield x ∉ draws_for (record:=record) b buf.
Proof.
  unfold draws_for. intros H%list_elem_of_In%repeat_spec. discriminate.
Qed.

Lemma collect_after_no_yield gc (buf : list key) x :
  EvYield x ∉ collect_after (record:=record) gc buf.
Proof.
  unfold collect_after.
  destruct ((gc =? GC_COLLECT_BATCH) && truthy buf); [|apply not_elem_of_nil].
  by intros ?%list_elem_of_singleton.
Qed.

(** The yields of one turn of the loop. *)
Lemma at_each_yield_segment Q v qs gc b (buf : list key) past :
  match v with
  | Records =>
      forall k r, rows (filter_pk_in qs buf) !! k = Some r ->
        Q (past ++ draws_for b buf ++ EvFilter buf :: EvIterator buf
             :: ((fun r => EvYield (Row r)) <$> take k (rows (filter_pk_in qs buf))))
          (Row r)
  | _ => Q (past ++ draws_for b buf ++ [EvFilter buf]) (Batch buf)
  end ->
  at_each_yield Q past (segment v qs gc b buf).
Proof.
  intros H. unfold segment.
  apply at_each_yield_app; [apply at_each_yield_none, draws_for_no_yield|].
  change (EvFilter buf :: ?l) with ([EvFilter buf] ++ l).
  apply at_each_yield_app.
  { apply at_each_yield_none. by intros x ?%list_elem_of_singleton. }
  apply at_each_yield_app;
    [|apply at_each_yield_none, collect_after_no_yield].
  rewrite <- app_assoc.
  destruct v; simpl.
  - change (EvIterator buf :: ?l) with ([EvIterator buf] ++ l).
    apply at_each_yield_app.
    { apply at_each_yield_none. by intros x ?%list_elem_of_singleton. }
    apply at_each_yield_rows. intros k r Hk.
    rewrite <- !app_assoc. simpl. by apply H.
  - intros tr1 x tr2 Heq. destruct tr1 as [|? [|??]]; simpl in Heq;
      simplify_eq. by rewrite app_nil_r.
  - intros tr1 x tr2 Heq. destruct tr1 as [|? [|??]]; simpl in Heq;
      simplify_eq. by rewrite app_nil_r.
Qed.

Lemma at_each_yield_segments Q v qs gc b (bufs : list (list key)) : forall past,
  (forall j buf, bufs !! j = Some buf ->
     at_each_yield Q (past ++ concat (segment v qs gc b <$> take j bufs))
       (segment v qs gc b buf)) ->
  at_each_yield Q past (concat (segment v qs gc b <$> bufs)).
Proof.
  induction bufs as [|buf bufs IH]; intros past H.
  - apply at_each_yield_none. intros x. apply not_elem_of_nil.
  - rewrite fmap_cons. cbn [concat]. apply at_each_yield_app.
    + specialize (H 0%nat buf eq_refl). simpl in H. by rewrite app_nil_r in H.
    + apply IH. intros j bj Hj. specialize (H (S j) bj Hj).
      rewrite <- app_assoc. exact H.
Qed.

(** Where a pass stands whenever an element is received: in buffer [j],
    after the turns of the buffers before it, the draws and the [filter]
    call of this one, and the rows of this one already handed over. *)
Lemma at_each_yield_pass Q v qs gc b (bufs : list (list key)) (tail : list event) :
  tail = [] \/ tail = [EvCollect] ->
  (forall j buf, bufs !! j = Some buf ->
     match v with
     | Records =>
         forall k r, rows (filter_pk_in qs buf) !! k = Some r ->
           Q (EvOpen :: concat (segment v qs gc b <$> take j bufs)
                ++ draws_for b buf ++ EvFilter buf :: EvIterator buf
                :: ((fun r => EvYield (Row r)) <$> take k (rows (filter_pk_in qs buf))))
             (Row r)
     | _ =>
         Q (EvOpen :: concat (segment v qs gc b <$> take j bufs)
              ++ draws_for b buf ++ [EvFilter buf]) (Batch buf)
     end) ->
  at_each_yield Q [] (EvOpen :: concat (segment v qs gc b <$> bufs) ++ tail).
Proof.
  intros Htail H.
  change (EvOpen :: ?l) with ([EvOpen] ++ l).
  apply at_each_yield_app.
  { apply at_each_yield_none. by intros x ?%list_elem_of_singleton. }
  apply at_each_yield_app.
  - apply at_each_yield_segments. intros j buf Hj.
    apply at_each_yield_segment. specialize (H j buf Hj).
    destruct v; exact H.
  - apply at_each_yield_none. intros x.
    destruct Htail as [-> | ->]; [apply not_elem_of_nil|].
    by intros ?%list_elem_of_singleton.
Qed.
Lemma standing_reading qs gc b (pre : list (list key)) (buf : list key)
    (rs : list record) (records : bool) :
  let h := EvOpen :: concat (segment (if records then Records else Batches) qs gc b <$> pre)
             ++ draws_for b buf ++ EvFilter buf
             :: (if records
                 then EvIterator buf :: ((fun r => EvYield (Row r)) <$> rs)
                 else []) in
  filter_calls h = pre ++ [buf] /\
  rows_yielded h
    = (if records
       then concat ((fun buf => rows (filter_pk_in qs buf)) <$> pre) ++ rs
       else []) /\
  collects h
    = (if gc =? GC_COLLECT_BATCH then length (List.filter truthy pre) else 0%nat) /\
  draws h
    = (sum_list ((fun buf => length buf + (if (length buf <? b)%nat then 1 else 0))%nat
                   <$> pre)
       + (length buf + (if (length buf <? b)%nat then 1 else 0)))%nat.
Proof.
  intros h. subst h.
  destruct (segments_reading (if records then Records else Batches) qs gc b pre)
    as (S1 & S2 & _ & S4 & S5).
  destruct (draws_for_reading (record:=record) b buf) as (D1 & D2 & _ & D4 & D5).
  destruct (row_events_reading (key:=key) rs) as (R1 & R2 & _ & R4 & R5).
  cbv zeta in S1, S2, S4, S5, R1, R2, R4, R5.
  change (EvOpen :: ?l) with ([EvOpen] ++ l).
  change (EvFilter buf :: ?l) with ([EvFilter buf] ++ l).
  rewrite !filter_calls_app, !rows_yielded_app, !collects_app, !draws_app.
  rewrite S1, S2, S4, S5, D1, D2, D4, D5.
  destruct records.
  - change (EvIterator buf :: ?l) with ([EvIterator buf] ++ l).
    rewrite !filter_calls_app, !rows_yielded_app, !collects_app, !draws_app.
    rewrite R1, R2, R4, R5. simpl. rewrite ?app_nil_r, ?Nat.add_0_r.
    repeat split; done.
  - simpl. rewrite ?app_nil_r, ?Nat.add_0_r. repeat split; done.
Qed.

Lemma draws_bounds b (l : list (list key)) :
  Forall (fun buf => (length buf <= b)%nat) l ->
  (length (concat l)
   <= sum_list ((fun buf => length buf + (if (length buf <? b)%nat then 1 else 0))%nat <$> l)
   <= length l * b)%nat.
Proof.
  induction 1 as [|buf l Hbuf _ IH]; [done|].
  rewrite fmap_cons. cbn [concat]. rewrite length_app.
  change (sum_list (?x :: ?t)) with (x + sum_list t)%nat.
  simpl length. destruct (Nat.ltb_spec (length buf) b); lia.
Qed.

Lemma concat_take_prefix (l : list (list key)) n :
  concat (take n l) `prefix_of` concat l.
Proof.
  exists (concat (drop n l)). by rewrite <- concat_app, take_drop.
Qed.

(** X9.  Nothing is drawn or fetched ahead.  Whenever the consumer receives
    an element of a full pass, the buffers passed to [filter] so far hold
    the keys from the start of the key sequence on; the element comes from
    the last of them (a row of its fetch, or its batch); and the key
    iterator has been asked at most [b] times per [filter] call made. *)
Theorem nothing_is_drawn_ahead v qs z gc :
  1 <= z ->
  answers (method_of v) (pk_iterator qs) = true ->
  reliable qs ->
  exists tr,
    full_pass (call v qs (Int z) gc) tr Completed /\
    forall tr1 x tr2, tr = tr1 ++ EvYield x :: tr2 ->
      exists buf,
        last (filter_calls tr1) = Some buf /\
        match x with
        | Row r => v = Records /\ r ∈ rows (filter_pk_in qs buf)
        | Batch l => v <> Records /\ l = buf
        end /\
        concat (filter_calls tr1) `prefix_of` pending (pk_iterator qs) /\
        (length (concat (filter_calls tr1)) <= draws tr1
         <= length (filter_calls tr1) * Z.to_nat z)%nat.
Proof.
  intros Hz Hm Hrel.
  assert (Hb : (1 <= Z.to_nat z)%nat) by lia.
  pose proof (full_pass_reliable v qs z gc Hz Hm Hrel) as Hpass.
  set (b := Z.to_nat z) in *. set (keys := pending (pk_iterator qs)) in *.
  eexists. split; [exact Hpass|].
  apply (at_each_yield_pass (fun h x =>
    exists buf,
      last (filter_calls h) = Some buf /\
      match x with
      | Row r => v = Records /\ r ∈ rows (filter_pk_in qs buf)
      | Batch l => v <> Records /\ l = buf
      end /\
      concat (filter_calls h) `prefix_of` keys /\
      (length (concat (filter_calls h)) <= draws h
       <= length (filter_calls h) * b)%nat)).
  { destruct (gc =? GC_COLLECT_END); auto. }
  intros j buf Hj.
  assert (Hpre : Forall (fun l => (length l <= b)%nat) (take j (buffers b keys) ++ [buf])).
  { apply Forall_app. split.
    - apply Forall_take, Forall_forall. intros l Hl. by eapply buffers_bounded.
    - constructor; [|done]. eapply buffers_bounded; [done|].
      by eapply list_elem_of_lookup_2. }
  assert (Hpref : concat (take j (buffers b keys) ++ [buf]) `prefix_of` keys).
  { rewrite <- (take_S_r _ _ _ Hj). rewrite <- (concat_buffers b keys Hb) at 2.
    apply concat_take_prefix. }
  pose proof (draws_bounds b _ Hpre) as Hbounds.
  rewrite fmap_app, sum_list_with_app in Hbounds.
  change (sum_list (?f <$> [buf])) with (f buf + 0)%nat in Hbounds.
  rewrite Nat.add_0_r in Hbounds. cbv beta in Hbounds.
  destruct v.
  - intros k r Hk.
    destruct (standing_reading qs gc b (take j (buffers b keys)) buf
                (take k (rows (filter_pk_in qs buf))) true) as (F & _ & _ & D).
    cbv zeta in F, D. exists buf. rewrite F, D, last_snoc.
    repeat split; try done; [|apply Hbounds..].
    by eapply list_elem_of_lookup_2.
  - destruct (standing_reading qs gc b (take j (buffers b keys)) buf [] false)
      as (F & _ & _ & D).
    cbv zeta in F, D. exists buf. rewrite F, D, last_snoc.
    repeat split; try done; apply Hbounds.
  - destruct (standing_reading qs gc b (take j (buffers b keys)) buf [] false)
      as (F & _ & _ & D).
    cbv zeta in F, D. exists buf.
    change (segment Batches qs gc b) with (segment BatchesQs qs gc b) in F, D.
    rewrite F, D, last_snoc.
    repeat split; try done; apply Hbounds.
Qed.
(** *** What the test suite watches *)

Lemma full_before b keys j (buf : list key) :
  (1 <= b)%nat ->
  buffers b keys !! j = Some buf ->
  Forall (fun l => length l = b) (take j (buffers b keys)) /\
  length (take j (buffers b keys)) = j /\
  (length buf <= b)%nat /\
  buf = buffer_at b keys j.
Proof.
  intros Hb Hj.
  destruct (buffers_lookup b keys j buf Hb Hj) as (Hbuf & Hle & _).
  split; [|split; [|split; [|done]]].
  - apply Forall_lookup. intros i l [Hi Hlt]%lookup_take_Some.
    destruct (buffers_lookup b keys i l Hb Hi) as (_ & _ & Hfull & _).
    apply Hfull. lia.
  - rewrite length_take, length_buffers. lia.
  - eapply buffers_bounded; [done|]. by eapply list_elem_of_lookup_2.
Qed.

Lemma rows_of_full_buffers qs b (pre : list (list key)) :
  Forall (fun l => length l = b) pre ->
  (forall l, l ∈ pre -> length (rows (filter_pk_in qs l)) = length l) ->
  length (concat ((fun l => rows (filter_pk_in qs l)) <$> pre)) = (length pre * b)%nat.
Proof.
  induction 1 as [|l pre Hl _ IH]; intros Hrows; [done|].
  rewrite fmap_cons. cbn [concat]. rewrite length_app.
  rewrite Hrows by left. rewrite IH by (intros; apply Hrows; by right).
  simpl. lia.
Qed.

Lemma full_buffers_hold_keys b (pre : list (list key)) :
  (1 <= b)%nat ->
  Forall (fun l => length l = b) pre ->
  length (List.filter truthy pre) = length pre.
Proof.
  intros Hb. induction 1 as [|l pre Hl _ IH]; [done|].
  destruct l; simpl in *; [lia|]. by rewrite IH.
Qed.

(** Where the pass stands when a row is received, for a source whose
    fetches give a row for every key. *)
Lemma standing_when_row_received qs gc b keys j (buf : list key) k r :
  (1 <= b)%nat ->
  (forall l, l ∈ buffers b keys -> length (rows (filter_pk_in qs l)) = length l) ->
  buffers b keys !! j = Some buf ->
  rows (filter_pk_in qs buf) !! k = Some r ->
  let h := EvOpen :: concat (segment Records qs gc b <$> take j (buffers b keys))
             ++ draws_for b buf ++ EvFilter buf :: EvIterator buf
             :: ((fun r => EvYield (Row r)) <$> take k (rows (filter_pk_in qs buf))) in
  (length (rows_yielded h) / b)%nat = j /\
  filter_calls h = take j (buffers b keys) ++ [buf] /\
  collects h = (if gc =? GC_COLLECT_BATCH then j else 0%nat).
Proof.
  intros Hb Hrows Hj Hk h.
  destruct (full_before b keys j buf Hb Hj) as (Hfull & Hlen & Hbuf & _).
  destruct (standing_reading qs gc b (take j (buffers b keys)) buf
              (take k (rows (filter_pk_in qs buf))) true) as (F & R & C & _).
  cbv zeta in F, R, C. subst h. rewrite F, R, C.
  assert (Hklt : (k < b)%nat).
  { apply lookup_lt_Some in Hk.
    rewrite Hrows in Hk by by eapply list_elem_of_lookup_2. lia. }
  split; [|split; [done|]].
  - rewrite length_app, (rows_of_full_buffers qs b); [|done|].
    + rewrite Hlen, length_take.
      apply lookup_lt_Some in Hk.
      replace (k `min` length (rows (filter_pk_in qs buf)))%nat with k by lia.
      rewrite (Nat.div_add_l j b k) by lia. rewrite Nat.div_small by done. lia.
    + intros l Hl. apply Hrows. by eapply subseteq_take.
  - by rewrite (full_buffers_hold_keys b), Hlen.
Qed.

(** X10.  Under [GC_COLLECT_BATCH], over a source whose fetches give a row
    for every key: when the consumer receives a row, [gc.collect()] has
    been called once for each [b] rows received before it, and when the
    pass is over it has been called [ceil(n / b)] times for the [n] rows. *)
Theorem collections_when_a_row_is_received qs z :
  1 <= z ->
  has_next (pk_iterator qs) = true ->
  reliable qs ->
  let b := Z.to_nat z in
  let keys := pending (pk_iterator qs) in
  (forall l, l ∈ buffers b keys -> length (rows (filter_pk_in qs l)) = length l) ->
  exists tr,
    full_pass (queryset_iterator qs (Int z) GC_COLLECT_BATCH true) tr Completed /\
    (forall tr1 x tr2, tr = tr1 ++ EvYield x :: tr2 ->
       collects tr1 = (length (rows_yielded tr1) / b)%nat) /\
    length (rows_yielded tr) = length keys /\
    collects tr
      = (length keys / b + (if (length keys mod b =? 0)%nat then 0 else 1))%nat.
Proof.
  intros Hz Hm Hrel b keys Hrows.
  assert (Hb : (1 <= b)%nat) by (subst b; lia).
  pose proof (full_pass_reliable Records qs z GC_COLLECT_BATCH Hz Hm Hrel) as Hpass.
  fold b keys in Hpass.
  eexists. split; [exact Hpass|]. split; [|split].
  - intros tr1 x tr2 Heq. rewrite <- (app_nil_l tr1). revert tr1 x tr2 Heq.
    apply (at_each_yield_pass (fun h x =>
      collects h = (length (rows_yielded h) / b)%nat)); [auto|].
    intros j buf Hj k r Hk.
    destruct (standing_when_row_received qs GC_COLLECT_BATCH b keys j buf k r
                Hb Hrows Hj Hk) as (H1 & _ & H3).
    cbv zeta in H1, H3. by rewrite H1, H3.
  - remember (buffers b keys) as bufs eqn:Hbufs.
    destruct (reading_of_pass Records qs GC_COLLECT_BATCH b bufs []) as (_ & R & _);
      [auto|].
    simpl in R |- *. rewrite R. subst bufs.
    rewrite <- (concat_buffers b keys Hb) at 2.
    clear R Hpass. induction (buffers b keys) as [|l bufs IH]; [done|].
    rewrite fmap_cons. cbn [concat]. rewrite !length_app.
    rewrite Hrows by left. rewrite IH; [done|]. intros; apply Hrows; by right.
  - remember (buffers b keys) as bufs eqn:Hbufs.
    destruct (segments_reading Records qs GC_COLLECT_BATCH b bufs)
      as (_ & _ & _ & C & _).
    cbv zeta in C. simpl in C |- *.
    change (EvOpen :: ?l) with ([EvOpen] ++ l).
    rewrite !collects_app, C. subst bufs. rewrite buffers_nonempty by done.
    change (collects []) with 0%nat. change (collects [EvOpen]) with 0%nat.
    by rewrite Nat.add_0_r.
Qed.

(** X11.  Over a source whose fetches give a row for every key: when the
    consumer receives row number [m] (counting from 0), [filter] has been
    called [m / b + 1] times and its last call had exactly the keys
    [keys[(m/b)*b : (m/b+1)*b]] of the batch that the row belongs to. *)
Theorem fetches_when_a_row_is_received qs z gc :
  1 <= z ->
  has_next (pk_iterator qs) = true ->
  reliable qs ->
  let b := Z.to_nat z in
  let keys := pending (pk_iterator qs) in
  (forall l, l ∈ buffers b keys -> length (rows (filter_pk_in qs l)) = length l) ->
  exists tr,
    full_pass (queryset_iterator qs (Int z) gc true) tr Completed /\
    forall tr1 x tr2, tr = tr1 ++ EvYield x :: tr2 ->
      let m := length (rows_yielded tr1) in
      length (filter_calls tr1) = S (m / b) /\
      last (filter_calls tr1) = Some (take b (drop (m / b * b) keys)).
Proof.
  intros Hz Hm Hrel b keys Hrows.
  assert (Hb : (1 <= b)%nat) by (subst b; lia).
  pose proof (full_pass_reliable Records qs z gc Hz Hm Hrel) as Hpass.
  fold b keys in Hpass.
  eexists. split; [exact Hpass|].
  intros tr1 x tr2 Heq. rewrite <- (app_nil_l tr1). revert tr1 x tr2 Heq.
  apply (at_each_yield_pass (fun h x =>
    let m := length (rows_yielded h) in
    length (filter_calls h) = S (m / b) /\
    last (filter_calls h) = Some (take b (drop (m / b * b) keys)))).
  { destruct (gc =? GC_COLLECT_END); auto. }
  intros j buf Hj k r Hk.
  destruct (standing_when_row_received qs gc b keys j buf k r Hb Hrows Hj Hk)
    as (H1 & H2 & _).
  destruct (full_before b keys j buf Hb Hj) as (_ & Hlen & _ & Hbuf).
  cbv zeta in H1, H2 |- *. rewrite H1, H2, last_snoc, length_app, Hlen.
  split; [simpl; lia|]. by rewrite Hbuf.
Qed.
End Received.

(** ** Sources over a table *)

Section MockTable.
Implicit Types (rs : list Mock.row).

Lemma filter_all {A} (P : A -> Prop) `{forall x, Decision (P x)} (l : list A) :
  (forall x, x ∈ l -> P x) -> filter P l = l.
Proof.
  induction l as [|x l IH]; intros Hl; [done|].
  rewrite filter_cons, decide_True by (apply Hl; by left).
  f_equal. apply IH. intros y Hy. apply Hl. by right.
Qed.

Lemma filter_none {A} (P : A -> Prop) `{forall x, Decision (P x)} (l : list A) :
  (forall x, x ∈ l -> ~ P x) -> filter P l = [].
Proof.
  induction l as [|x l IH]; intros Hl; [done|].
  rewrite filter_cons, decide_False by (apply Hl; by left).
  apply IH. intros y Hy. apply Hl. by right.
Qed.

(** A table asked for the keys of a stretch of it gives back that
    stretch. *)
Lemma filter_mock_stretch l1 l2 l3 :
  NoDup (Mock.row_pk <$> l1 ++ l2 ++ l3) ->
  rows (Mock.filter_mock (l1 ++ l2 ++ l3) (Mock.row_pk <$> l2)) = l2.
Proof.
  intros Hnd. simpl.
  rewrite !fmap_app in Hnd.
  apply NoDup_app in Hnd as (_ & H12 & Hnd).
  apply NoDup_app in Hnd as (_ & H23 & _).
  rewrite !filter_app.
  rewrite (filter_none _ l1), (filter_all _ l2), (filter_none _ l3).
  - by rewrite app_nil_r.
  - intros r Hr Hin. apply (H23 (Mock.row_pk r)); [done|].
    by apply list_elem_of_fmap_2.
  - intros r Hr. by apply list_elem_of_fmap_2.
  - intros r Hr Hin. apply (H12 (Mock.row_pk r)).
    + by apply list_elem_of_fmap_2.
    + apply elem_of_app. by left.
Qed.

Lemma buffers_fmap {A B} (f : A -> B) b (l : list A) :
  buffers b (f <$> l) = (fun buf : list A => f <$> buf) <$> buffers b l.
Proof.
  unfold buffers. rewrite length_fmap, <- list_fmap_compose.
  apply list_fmap_ext. intros ? i ?. unfold buffer_at. simpl.
  by rewrite fmap_take, fmap_drop.
Qed.

Lemma filter_mock_buffer rs b i :
  NoDup (Mock.row_pk <$> rs) ->
  rows (Mock.filter_mock rs (Mock.row_pk <$> buffer_at b rs i)) = buffer_at b rs i.
Proof.
  intros Hnd. unfold buffer_at.
  pose proof (filter_mock_stretch (take (i * b) rs)
                (take b (drop (i * b) rs)) (drop b (drop (i * b) rs))) as H.
  rewrite (take_drop b), (take_drop (i * b)) in H. by apply H.
Qed.

(** Over a table with distinct pks every key has its row. *)
Lemma mock_gives_a_row_per_key has_next has_dunder_next rs b l :
  NoDup (Mock.row_pk <$> rs) ->
  l ∈ buffers b (pending (pk_iterator (Mock.queryset_mock has_next has_dunder_next rs))) ->
  length (rows (filter_pk_in (Mock.queryset_mock has_next has_dunder_next rs) l))
    = length l.
Proof.
  intros Hnd Hl. simpl in Hl.
  rewrite buffers_fmap in Hl.
  apply list_elem_of_fmap in Hl as (chunk & -> & Hchunk).
  unfold buffers in Hchunk.
  apply list_elem_of_fmap in Hchunk as (i & -> & _).
  change (filter_pk_in _) with (Mock.filter_mock rs).
  rewrite filter_mock_buffer by done. by rewrite length_fmap.
Qed.
End MockTable.

(** ** A batch size that is a float *)

Lemma Qltb_lt (x y : Q) : Qltb x y = true <-> (x < y)%Q.
Proof. unfold Qltb, Qlt. apply Z.ltb_lt. Qed.

Lemma int_below_float (n : Z) (q : Q) :
  Qltb (inject_Z n) q = (n <? Qceiling q).
Proof.
  apply eq_true_iff_eq. rewrite Qltb_lt, Z.ltb_lt. split.
  - intros H. rewrite Zlt_Qlt. eapply Qlt_le_trans; [exact H|apply Qle_ceiling].
  - intros H. apply Qle_lt_trans with (inject_Z (Qceiling q - 1)).
    + rewrite <- Zle_Qle. lia.
    + apply Qceiling_lt.
Qed.

Lemma float_not_below_one (q : Q) :
  Qltb q (inject_Z 1) = false -> (Qceiling q <? 1) = false.
Proof.
  intros H. apply Z.ltb_ge.
  assert (Hq : (inject_Z 1 <= q)%Q).
  { apply Qnot_lt_le. intros Hlt%Qltb_lt. congruence. }
  rewrite Zle_Qle. eapply Qle_trans; [exact Hq|apply Qle_ceiling].
Qed.

Section Resized.
Context {key record err : Type}.

Local Abbreviation event := (event (key:=key) (record:=record)).
Local Abbreviation result := (result (key:=key) (record:=record) (err:=err)).
Local Abbreviation generator := (generator (key:=key) (record:=record) (err:=err)).
Local Abbreviation queryset := (queryset (key:=key) (record:=record) (err:=err)).
Local Abbreviation key_iterator := (key_iterator (key:=key) (err:=err)).

Implicit Types (qs : queryset) (g : generator) (tr evs : list event).

Variables bs1 bs2 : value.
Hypothesis Hsame : forall n, int_lt (err:=err) n bs1 = int_lt n bs2.

Lemma fill_resized m (it : key_iterator) rem buf :
  fill (record:=record) bs1 m it rem buf = fill bs2 m it rem buf.
Proof.
  revert buf. induction rem as [|k rem IH]; intros buf; simpl;
    rewrite Hsame; [done|].
  by rewrite IH.
Qed.

Lemma resized_prepend evs (r : result) :
  resized_result bs1 (prepend evs r) = prepend evs (resized_result bs1 r).
Proof. by destruct r as [[[??]?]|]. Qed.

Lemma collect_batch_resized gc (done : generator) again1 again2
    (it : key_iterator) buf c :
  again1 it = resized_result bs1 (again2 it) ->
  collect_batch gc (resized bs1 done) again1 it buf c
    = resized_result bs1 (collect_batch gc done again2 it buf c).
Proof.
  intros H. unfold collect_batch. rewrite resized_prepend. f_equal.
  destruct c; simpl; done.
Qed.

Lemma for_result_resized qs gc ir again1 again2 (it : key_iterator) buf rs fails c :
  again1 it = resized_result bs1 (again2 it) ->
  for_result qs bs1 gc ir again1 it buf rs fails c
    = resized_result bs1 (for_result qs bs2 gc ir again2 it buf rs fails c).
Proof.
  intros H. destruct rs as [|r rs]; simpl; [|done].
  destruct fails; [done|].
  by apply (collect_batch_resized gc (QI qs bs2 gc ir QI_done)).
Qed.

Lemma finally_qi_resized qs gc ir again1 again2 (it : key_iterator) buf c :
  again1 it = resized_result bs1 (again2 it) ->
  finally_qi qs bs1 gc ir again1 it buf c
    = resized_result bs1 (finally_qi qs bs2 gc ir again2 it buf c).
Proof.
  intros H. unfold finally_qi. destruct ir; [|done].
  rewrite resized_prepend. f_equal. by apply for_result_resized.
Qed.

Lemma loop_qi_resized qs gc ir fuel (it : key_iterator) :
  loop_qi qs bs1 gc ir fuel it = resized_result bs1 (loop_qi qs bs2 gc ir fuel it).
Proof.
  revert it. induction fuel as [|fuel IH]; intros it; [done|]. simpl.
  rewrite fill_resized.
  destruct (fill bs2 next it (pending it) []) as [[[evs rest] buf] c].
  rewrite resized_prepend. f_equal. apply finally_qi_resized, IH.
Qed.

(** A step of [queryset_iterator] does not depend on the batch size beyond
    the comparisons it makes with it. *)
Lemma resume_resized qs gc ir f :
  lt_int (err:=err) bs1 1 = inr false ->
  lt_int (err:=err) bs2 1 = inr false ->
  resume (QI qs bs1 gc ir f) = resized_result bs1 (resume (QI qs bs2 gc ir f)).
Proof.
  intros H1 H2. destruct f as [|it buf rs fails c|it buf c|]; simpl.
  - rewrite H1, H2, resized_prepend. f_equal. apply loop_qi_resized.
  - apply for_result_resized, loop_qi_resized.
  - apply (collect_batch_resized gc (QI qs bs2 gc ir QI_done)), loop_qi_resized.
  - done.
Qed.

(** The generator that a step of [queryset_iterator] leaves is the same
    call, at another frame. *)
Lemma same_call_prepend qs (bs : value) gc ir evs (r : result) :
  holds (fun _ _ g => exists f', g = QI qs bs gc ir f') r ->
  holds (fun _ _ g => exists f', g = QI qs bs gc ir f') (prepend evs r).
Proof. by destruct r as [[[??]?]|]. Qed.

Lemma collect_batch_same_call qs (bs : value) gc ir again (it : key_iterator) buf c :
  holds (fun _ _ g => exists f', g = QI qs bs gc ir f') (again it) ->
  holds (fun _ _ g => exists f', g = QI qs bs gc ir f')
    (collect_batch gc (QI qs bs gc ir QI_done) again it buf c).
Proof.
  intros H. unfold collect_batch. apply same_call_prepend.
  destruct c; simpl; eauto.
Qed.

Lemma for_result_same_call qs (bs : value) gc ir again (it : key_iterator)
    buf rs fails c :
  holds (fun _ _ g => exists f', g = QI qs bs gc ir f') (again it) ->
  holds (fun _ _ g => exists f', g = QI qs bs gc ir f')
    (for_result qs bs gc ir again it buf rs fails c).
Proof.
  intros H. destruct rs; simpl; [|eauto].
  destruct fails; simpl; [eauto|]. by apply collect_batch_same_call.
Qed.

Lemma loop_qi_same_call qs (bs : value) gc ir fuel (it : key_iterator) :
  holds (fun _ _ g => exists f', g = QI qs bs gc ir f')
    (loop_qi qs bs gc ir fuel it).
Proof.
  revert it. induction fuel as [|fuel IH]; intros it; [done|]. simpl.
  destruct (fill bs next it (pending it) []) as [[[evs rest] buf] c].
  apply same_call_prepend. unfold finally_qi.
  destruct ir; simpl; [|eauto].
  apply (same_call_prepend _ _ _ _ [_; _]). apply for_result_same_call, IH.
Qed.

Lemma resume_same_call qs (bs : value) gc ir f :
  holds (fun _ _ g => exists f', g = QI qs bs gc ir f')
    (resume (QI qs bs gc ir f)).
Proof.
  destruct f as [|it buf rs fails c|it buf c|]; simpl.
  - destruct (lt_int bs 1) as [e|[|]]; simpl; eauto.
    apply same_call_prepend, loop_qi_same_call.
  - apply for_result_same_call, loop_qi_same_call.
  - apply collect_batch_same_call, loop_qi_same_call.
  - eauto.
Qed.

Lemma pass_resized qs gc ir (r : result) tr fin :
  lt_int (err:=err) bs1 1 = inr false ->
  lt_int (err:=err) bs2 1 = inr false ->
  holds (fun _ _ g => exists f', g = QI qs bs2 gc ir f') r ->
  pass r tr fin -> pass (resized_result bs1 r) tr fin.
Proof.
  intros H1 H2 Hr Hpass.
  induction Hpass as [evs g|evs e g|evs x g tr fin _ IH]; simpl in *.
  - constructor.
  - constructor.
  - destruct Hr as [f' ->]. constructor.
    change (resized bs1 (QI qs bs2 gc ir f')) with (QI qs bs1 gc ir f').
    rewrite (resume_resized qs gc ir f' H1 H2). apply IH.
    apply resume_same_call.
Qed.
End Resized.

Section Float.
Context {key record err : Type}.

Local Abbreviation queryset := (queryset (key:=key) (record:=record) (err:=err)).

Lemma float_as_ceiling (qs : queryset) (q : Q) gc ir tr fin :
  Qltb q (inject_Z 1) = false ->
  full_pass (queryset_iterator qs (Float q) gc ir) tr fin <->
  full_pass (queryset_iterator qs (Int (Qceiling q)) gc ir) tr fin.
Proof.
  intros Hq.
  assert (H1 : lt_int (err:=err) (Float q) 1 = inr false) by (simpl; by rewrite Hq).
  assert (H2 : lt_int (err:=err) (Int (Qceiling q)) 1 = inr false)
    by (simpl; by rewrite float_not_below_one).
  assert (Hsame : forall n, int_lt (err:=err) n (Float q) = int_lt n (Int (Qceiling q)))
    by (intros n; simpl; by rewrite int_below_float).
  unfold full_pass, queryset_iterator. split; intros H.
  - rewrite (resume_resized (Int (Qceiling q)) (Float q)
               (fun n => eq_sym (Hsame n)) qs gc ir QI_start H2 H1).
    apply (pass_resized (Int (Qceiling q)) (Float q)
             (fun n => eq_sym (Hsame n)) qs gc ir); try done.
    apply resume_same_call.
  - rewrite (resume_resized (Float q) (Int (Qceiling q)) Hsame qs gc ir
               QI_start H1 H2).
    apply (pass_resized (Float q) (Int (Qceiling q)) Hsame qs gc ir); try done.
    apply resume_same_call.
Qed.

(** X13.  [queryset_iterator] takes a float batch size of at least 1 as its
    ceiling: with [batchsize=q] it makes the same full passes, with the same
    events, yields and ending, as with the [int] batch size [ceil(q)]. *)
Theorem float_batchsize_acts_as_its_ceiling (qs : queryset) (q : Q) gc ir tr fin :
  Qltb q (inject_Z 1) = false ->
  (full_pass (queryset_iterator qs (Float q) gc ir) tr fin <->
   full_pass (queryset_iterator qs (Int (Qceiling q)) gc ir) tr fin) /\
  (has_next (pk_iterator qs) = true ->
   exists tr' fin', full_pass (queryset_iterator qs (Float q) gc ir) tr' fin').
Proof.
  intros Hq. split; [by apply float_as_ceiling|].
  assert (Hz : 1 <= Qceiling q).
  { apply Z.ltb_ge. by apply float_not_below_one. }
  intros Hm. destruct ir; eexists _, _; apply float_as_ceiling; try done.
  - apply (full_pass_played Records qs (Qceiling q) gc Hz Hm).
  - apply (full_pass_played Batches qs (Qceiling q) gc Hz Hm).
Qed.
End Float.

(** ** The loop always ends *)

Section Ends.
Context {key record err : Type}.

Local Abbreviation event := (event (key:=key) (record:=record)).
Local Abbreviation result := (result (key:=key) (record:=record) (err:=err)).
Local Abbreviation generator := (generator (key:=key) (record:=record) (err:=err)).
Local Abbreviation queryset := (queryset (key:=key) (record:=record) (err:=err)).
Local Abbreviation key_iterator := (key_iterator (key:=key) (err:=err)).

Lemma int_pass_ends v (qs : queryset) z gc :
  exists tr fin, full_pass (call v qs (Int z) gc) tr fin.
Proof.
  destruct (Z.ltb_spec z 1) as [Hlt|Hge].
  - assert (Hz : lt_int (err:=err) (Int z) 1 = inr true)
      by (simpl; f_equal; lia).
    destruct (resume_below_one v qs (Int z) gc Hz) as [g Hg].
    eexists _, _. unfold full_pass. rewrite Hg. constructor.
  - destruct (answers (method_of v) (pk_iterator qs)) eqn:Hm.
    + eexists _, _. by apply full_pass_played.
    + assert (Hlt : (z <? 1) = false) by lia.
      assert (Hfill : fill (record:=record) (Int z) (method_of v) (pk_iterator qs)
                        (pending (pk_iterator qs)) []
                      = ([], pending (pk_iterator qs), [],
                         Reraise (AttributeError (method_name (method_of v)))))
        by by apply fill_unanswered.
      pose proof (finally_pass qs z gc v
        (enter v qs (Int z) gc (length (pending (pk_iterator qs))))
        (rest_of (pk_iterator qs) (pending (pk_iterator qs))) []
        (Reraise (AttributeError (method_name (method_of v))))
        [] (Failed (AttributeError (method_name (method_of v))))
        eq_refl eq_refl) as Hfin.
      eexists _, _. unfold full_pass.
      destruct v;
        cbn [resume call queryset_iterator queryset_iterator_qs resume_qi
             resume_qs lt_int isinstance_int];
        rewrite Hlt; apply (pass_prepend [EvOpen]);
        unfold while_true_qi, loop_qs; cbn [loop_qi];
        simpl method_of in Hfill; rewrite Hfill;
        apply (pass_prepend []); exact Hfin.
Qed.

(** Once the [try] statement is left by [break] or by an exception, what
    is left of the pass is finite, whatever the batch size. *)
Lemma collect_batch_ends (bs : value) gc (done : generator)
    (again : key_iterator -> result) (it : key_iterator) (buf : list key) c :
  c <> Normal ->
  exists tr fin, pass (collect_batch gc done again it buf c) tr fin.
Proof.
  intros Hc. unfold collect_batch, leave.
  destruct c as [| |e]; [done|..]; eexists _, _; apply pass_prepend; constructor.
Qed.

Lemma for_result_ends (qs : queryset) (bs : value) gc ir
    (again : key_iterator -> result) (it : key_iterator) buf rs fails c :
  c <> Normal ->
  exists tr fin, pass (for_result qs bs gc ir again it buf rs fails c) tr fin.
Proof.
  intros Hc. revert again. induction rs as [|r rs IH]; intros again; simpl.
  - destruct fails as [e|]; [eexists _, _; constructor|].
    by apply (collect_batch_ends bs).
  - destruct (IH (while_true_qi qs bs gc ir)) as (tr & fin & H).
    eexists _, _. apply (pass_yield []). simpl. exact H.
Qed.

Lemma finally_of_ends v (qs : queryset) (bs : value) gc
    (again : key_iterator -> result) (it : key_iterator) buf c :
  c <> Normal ->
  exists tr fin, pass (finally_of v qs bs gc again it buf c) tr fin.
Proof.
  intros Hc. destruct v; simpl.
  - unfold finally_qi.
    destruct (for_result_ends qs bs gc true again it buf
                (rows (filter_pk_in qs buf)) (failure (filter_pk_in qs buf)) c Hc)
      as (tr & fin & H).
    eexists _, _. apply (pass_prepend [_; _]). exact H.
  - destruct (collect_batch_ends bs gc (QI qs bs gc false QI_done)
                (while_true_qi qs bs gc false) it buf c Hc) as (tr & fin & H).
    eexists _, _. apply (pass_yield [EvFilter buf]). simpl. exact H.
  - destruct (collect_batch_ends bs gc (QS qs bs gc QS_done)
                (loop_qs qs bs gc) it buf c Hc) as (tr & fin & H).
    eexists _, _. apply (pass_yield [EvFilter buf]). simpl. exact H.
Qed.

(** With [float('inf')] the drawing loop is left only by the end of the key
    iterator or by an exception. *)
Lemma fill_infinity m (it : key_iterator) rem buf :
  (fill (record:=record) (Infinity false) m it rem buf).2 <> Normal.
Proof.
  revert buf. induction rem as [|k rem IH]; intros buf; simpl.
  - destruct (answers m it); simpl; [|done]. by destruct (ending it).
  - destruct (answers m it); simpl; [|done].
    specialize (IH (buf ++ [k])).
    by destruct (fill (Infinity false) m it rem (buf ++ [k])) as [[[evs rest] b'] c].
Qed.

Lemma infinity_pass_ends v (qs : queryset) gc :
  exists tr fin, full_pass (call v qs (Infinity false) gc) tr fin.
Proof.
  unfold full_pass.
  assert (Hqi : forall ir v', call v' qs (Infinity false) gc
                              = queryset_iterator qs (Infinity false) gc ir ->
            finally_of v' qs (Infinity false) gc
              = finally_qi qs (Infinity false) gc ir ->
            exists tr fin, pass (resume (call v' qs (Infinity false) gc)) tr fin).
  { intros ir v' -> Hfin. simpl. unfold while_true_qi. cbn [loop_qi].
    pose proof (fill_infinity next (pk_iterator qs) (pending (pk_iterator qs)) [])
      as Hc.
    destruct (fill (Infinity false) next (pk_iterator qs)
                (pending (pk_iterator qs)) []) as [[[evs rest] buf] c].
    simpl in Hc.
    destruct (finally_of_ends v' qs (Infinity false) gc
                (loop_qi qs (Infinity false) gc ir (length (pending (pk_iterator qs))))
                (rest_of (pk_iterator qs) rest) buf c Hc) as (tr & fin & H).
    rewrite Hfin in H.
    eexists _, _. apply (pass_prepend [EvOpen]). apply pass_prepend. exact H. }
  destruct v.
  - by apply (Hqi true Records).
  - by apply (Hqi false Batches).
  - simpl. eexists _, _. constructor.
Qed.

(** X14.  Over a key iterator that gives finitely many keys, whatever the
    fetches and the policy, consuming either generator to its end comes to
    an end for every batch size but [float('nan')] given to
    [queryset_iterator]: an [int], a finite float, an infinity, a value
    that has no order against [int].  The [while True] loop is left once
    the key iterator has given its last key, or earlier by an exception. *)
Theorem every_pass_ends v (qs : queryset) (bs : value) gc :
  v = BatchesQs \/ bs <> NaN ->
  exists tr fin, full_pass (call v qs bs gc) tr fin.
Proof.
  intros Hbs. destruct bs as [z|q| |[|]|t].
  - apply int_pass_ends.
  - destruct (Qltb q (inject_Z 1)) eqn:Hq.
    + assert (Hz : lt_int (err:=err) (Float q) 1 = inr true) by (simpl; by rewrite Hq).
      destruct (resume_below_one v qs (Float q) gc Hz) as [g Hg].
      eexists _, _. unfold full_pass. rewrite Hg. constructor.
    + destruct v.
      * destruct (int_pass_ends Records qs (Qceiling q) gc) as (tr & fin & H).
        exists tr, fin.
        by apply (float_as_ceiling qs q gc true tr fin Hq).
      * destruct (int_pass_ends Batches qs (Qceiling q) gc) as (tr & fin & H).
        exists tr, fin.
        by apply (float_as_ceiling qs q gc false tr fin Hq).
      * eexists _, _. unfold full_pass. simpl. rewrite Hq. constructor.
  - destruct Hbs as [->|Hbs]; [|done].
    eexists _, _. unfold full_pass. simpl. constructor.
  - destruct (resume_below_one v qs (Infinity true) gc eq_refl) as [g Hg].
    eexists _, _. unfold full_pass. rewrite Hg. constructor.
  - apply infinity_pass_ends.
  - eexists _, _. unfold full_pass. destruct v; simpl; constructor.
Qed.
End Ends.

(** ** A batch size that is not a number *)

Section NotANumber.
Context {key record err : Type}.

Local Abbreviation event := (event (key:=key) (record:=record)).
Local Abbreviation result := (result (key:=key) (record:=record) (err:=err)).
Local Abbreviation generator := (generator (key:=key) (record:=record) (err:=err)).
Local Abbreviation queryset := (queryset (key:=key) (record:=record) (err:=err)).
Local Abbreviation key_iterator := (key_iterator (key:=key) (err:=err)).

Implicit Types (qs : queryset) (g : generator) (tr evs : list event).

Local Abbreviation idles :=
  (fun (evs : list event) (o : outcome (err:=err)) (g : generator) =>
     draws evs = 0%nat /\ (exists x, o = Yielded x) /\ idling g).

Lemma idles_prepend evs (r : result) :
  draws evs = 0%nat -> holds idles r -> holds idles (prepend evs r).
Proof.
  intros Hevs. apply holds_prepend. intros evs' o g (Hd & Ho & Hg).
  by rewrite draws_app, Hevs, Hd.
Qed.

(** [len(pk_buffer) < float('nan')] is [False]: nothing is drawn. *)
Lemma fill_nan m (it : key_iterator) rem buf :
  fill (record:=record) NaN m it rem buf = ([], rem, buf, Normal).
Proof. by destruct rem. Qed.

Lemma for_result_idles qs gc ir again (it : key_iterator) buf rs :
  ir = false \/ failure (filter_pk_in qs []) = None ->
  holds idles (again it) ->
  holds idles (for_result qs NaN gc ir again it buf rs None Normal).
Proof.
  intros Hq Hagain. destruct rs as [|r rs]; simpl.
  - unfold collect_batch. apply idles_prepend; [|done].
    by destruct ((gc =? GC_COLLECT_BATCH) && truthy buf).
  - repeat split; eauto.
Qed.

Lemma loop_qi_idles qs gc ir fuel (it : key_iterator) :
  ir = false \/ failure (filter_pk_in qs []) = None ->
  holds idles (loop_qi qs NaN gc ir fuel it).
Proof.
  intros Hq. revert it. induction fuel as [|fuel IH]; intros it; [done|].
  cbn [loop_qi]. rewrite fill_nan. apply (idles_prepend []); [done|].
  unfold finally_qi. destruct ir.
  - destruct Hq as [|Hq]; [done|]. rewrite Hq.
    apply (idles_prepend [_; _]); [done|].
    apply for_result_idles; [by right|]. apply IH.
  - repeat split; eauto.
Qed.

Lemma resume_idles g : idling g -> holds idles (resume g).
Proof.
  destruct g as [qs bs gc ir f|qs bs gc f]; [|done].
  destruct bs; try done. intros [Hq Hf].
  destruct f as [|it buf rs [e|] [| |e']|it buf [| |e']|]; try done; simpl.
  - apply (idles_prepend [EvOpen]); [done|]. by apply loop_qi_idles.
  - apply for_result_idles; [done|]. by apply loop_qi_idles.
  - unfold collect_batch. apply idles_prepend.
    + by destruct ((gc =? GC_COLLECT_BATCH) && truthy buf).
    + by apply loop_qi_idles.
Qed.

Lemma pass_idles (r : result) tr fin : holds idles r -> pass r tr fin -> False.
Proof.
  intros Hr Hpass.
  induction Hpass as [evs g|evs e g|evs x g tr fin _ IH]; simpl in Hr.
  - by destruct Hr as (_ & [x Hx] & _).
  - by destruct Hr as (_ & [x Hx] & _).
  - destruct Hr as (_ & _ & Hg). by apply IH, resume_idles.
Qed.

(** X17.  [queryset_iterator] called with [batchsize=float('nan')] never
    ends, unless the fetch of the empty buffer raises.  Both [nan < 1] and
    [len(pk_buffer) < nan] are [False], so the size check lets the value
    through and no turn of [while True] draws a key or meets
    [StopIteration]: no pass comes to an end; a turn of the loop, however
    long it is let run, only ever hands an element over; and with
    [iterator_return=False] each [next()] gives the batch of the empty
    buffer. *)
Theorem nan_batchsize_never_ends qs gc ir :
  ir = false \/ failure (filter_pk_in qs []) = None ->
  (forall tr fin, ~ full_pass (queryset_iterator qs NaN gc ir) tr fin) /\
  (forall fuel (it : key_iterator),
     holds (fun evs o _ => draws evs = 0%nat /\ exists x, o = Yielded x)
       (loop_qi qs NaN gc ir fuel it)) /\
  (ir = false ->
   exists g, resume (queryset_iterator qs NaN gc ir)
             = Some ([EvOpen; EvFilter []], Yielded (Batch []), g) /\
             idling g).
Proof.
  intros Hq. split; [|split].
  - intros tr fin Hpass. apply (pass_idles _ tr fin) in Hpass; [done|].
    by apply resume_idles.
  - intros fuel it. pose proof (loop_qi_idles qs gc ir fuel it Hq) as H.
    destruct (loop_qi qs NaN gc ir fuel it) as [[[evs o] g]|]; [|done].
    simpl in *. by destruct H as (? & ? & _).
  - intros ->. eexists. split.
    + simpl. unfold while_true_qi. cbn [loop_qi]. by rewrite fill_nan.
    + split; [by left|done].
Qed.
End NotANumber.

(** ** The collection at the end *)

Section AtEnd.
Context {key record err : Type}.

Local Abbreviation event := (event (key:=key) (record:=record)).
Local Abbreviation result := (result (key:=key) (record:=record) (err:=err)).
Local Abbreviation generator := (generator (key:=key) (record:=record) (err:=err)).
Local Abbreviation queryset := (queryset (key:=key) (record:=record) (err:=err)).
Local Abbreviation key_iterator := (key_iterator (key:=key) (err:=err)).

Implicit Types (qs : queryset) (g : generator) (tr evs : list event).

Local Abbreviation closes :=
  (fun (evs : list event) (o : outcome (err:=err)) (g : generator) =>
     match o with
     | Stopped => collects evs = 1%nat
     | Raised _ => collects evs = 0%nat
     | Yielded _ =>
         collects evs = 0%nat /\ finished g = false /\
         gc_collect_of g = GC_COLLECT_END
     end).

Lemma closes_prepend evs (r : result) :
  collects evs = 0%nat -> holds closes r -> holds closes (prepend evs r).
Proof.
  intros Hevs. apply holds_prepend. intros evs' o g.
  rewrite collects_app, Hevs. by destruct o.
Qed.

Lemma collect_batch_closes (done : generator) again (it : key_iterator) buf c :
  holds closes (again it) ->
  holds closes (collect_batch GC_COLLECT_END done again it buf c).
Proof.
  intros Hagain. unfold collect_batch. apply closes_prepend; [done|].
  by destruct c.
Qed.

Lemma for_result_closes qs bs ir again (it : key_iterator) buf rs fails c :
  holds closes (again it) ->
  holds closes (for_result qs bs GC_COLLECT_END ir again it buf rs fails c).
Proof.
  intros Hagain. destruct rs as [|r rs]; simpl; [|done].
  destruct fails; [done|]. by apply collect_batch_closes.
Qed.

Lemma loop_qi_closes qs bs ir fuel (it : key_iterator) :
  holds closes (loop_qi qs bs GC_COLLECT_END ir fuel it).
Proof.
  revert it. induction fuel as [|fuel IH]; intros it; [done|]. simpl.
  pose proof (fill_draws_only (record:=record) bs next it (pending it) []) as Hd.
  destruct (fill bs next it (pending it) []) as [[[evs rest] buf] c].
  apply closes_prepend; [by apply collects_draws|].
  unfold finally_qi. destruct ir; [|done].
  apply (closes_prepend [_; _]); [done|]. apply for_result_closes, IH.
Qed.

Lemma loop_qs_closes qs bs (it : key_iterator) :
  holds closes (loop_qs qs bs GC_COLLECT_END it).
Proof.
  unfold loop_qs.
  pose proof (fill_draws_only (record:=record) bs dunder_next it (pending it) []) as Hd.
  destruct (fill bs dunder_next it (pending it) []) as [[[evs rest] buf] c].
  apply (closes_prepend evs (Some ([EvFilter buf], Yielded (Batch buf), _)));
    [by apply collects_draws|]. done.
Qed.

Lemma resume_closes g :
  gc_collect_of g = GC_COLLECT_END -> finished g = false ->
  holds closes (resume g).
Proof.
  destruct g as [qs bs gc ir f|qs bs gc f]; simpl; intros -> Hf.
  - destruct f as [|it buf rs fails c|it buf c|]; simpl; [..|done].
    + destruct (lt_int bs 1) as [e|[|]]; try done.
      apply (closes_prepend [EvOpen]); [done|]. apply loop_qi_closes.
    + apply for_result_closes, loop_qi_closes.
    + apply collect_batch_closes, loop_qi_closes.
  - destruct f as [|it buf c|]; simpl; [..|done].
    + destruct (lt_int bs 1) as [e|[|]]; try done.
      destruct (isinstance_int bs); [|done].
      apply (closes_prepend [EvOpen]); [done|]. apply loop_qs_closes.
    + apply collect_batch_closes, loop_qs_closes.
Qed.

Lemma pass_closes (r : result) tr fin :
  holds closes r -> pass r tr fin ->
  collects tr = match fin with Completed => 1%nat | Failed _ => 0%nat end.
Proof.
  intros Hr Hpass.
  induction Hpass as [evs g|evs e g|evs x g tr fin _ IH]; simpl in Hr; try done.
  destruct Hr as (Hevs & Hf & Hgc).
  change (EvYield x :: tr) with ([EvYield x] ++ tr).
  rewrite !collects_app, Hevs, IH; [done|]. by apply resume_closes.
Qed.

(** X15.  Under [GC_COLLECT_END] the one [gc.collect()] belongs to the
    normal end of the pass: whatever the queryset and the batch size, a pass
    that runs to its end has called it exactly once and a pass that ends
    with an exception has not called it at all. *)
Theorem collect_at_end_only_on_completion v qs (bs : value) tr fin :
  full_pass (call v qs bs GC_COLLECT_END) tr fin ->
  collects tr = match fin with Completed => 1%nat | Failed _ => 0%nat end.
Proof.
  intros Hpass. eapply pass_closes; [|exact Hpass].
  apply resume_closes; by destruct v.
Qed.
End AtEnd.

(** ** The keys asked for, whatever the end of the pass *)

Section InOrder.
Context {key record err : Type}.

Local Abbreviation event := (event (key:=key) (record:=record)).
Local Abbreviation queryset := (queryset (key:=key) (record:=record) (err:=err)).

Implicit Types (qs : queryset) (tr : list event).



End InOrder.

Lemma collect_at_end_only_on_completion_witness :
  exists tr,
    full_pass (queryset_iterator Mock.keys_break (Int 2) GC_COLLECT_END true)
      tr (Failed (SourceError "boom"%string)) /\
    collects tr = 0%nat.
Proof.
  eexists. split; [apply (drive_sound 10); vm_compute; reflexivity|].
  apply (collect_at_end_only_on_completion Records Mock.keys_break (Int 2)
           _ (Failed (SourceError "boom"%string))).
  apply (drive_sound 10); vm_compute; reflexivity.
Defined.


(** ** The further properties on concrete querysets *)

Lemma no_policy_never_collects_witness :
  exists tr,
    full_pass (queryset_iterator (Mock.legacy (Mock.table 3)) (Int 2) 0 true)
      tr Completed /\
    collects tr = 0%nat.
Proof.
  eexists. split; [apply (drive_sound 10); vm_compute; reflexivity|].
  apply (no_policy_never_collects
           (queryset_iterator (Mock.legacy (Mock.table 3)) (Int 2) 0 true)
           _ Completed); [discriminate|discriminate|].
  apply (drive_sound 10); vm_compute; reflexivity.
Defined.

Lemma batches_are_never_read_witness :
  exists tr,
    full_pass (queryset_iterator_qs (Mock.python3 (Mock.table 3)) (Int 2)
                 GC_COLLECT_BATCH) tr Completed /\
    iterator_calls tr = 0%nat /\ rows_yielded tr = [].
Proof.
  eexists. split; [apply (drive_sound 10); vm_compute; reflexivity|].
  apply (batches_are_never_read (Mock.python3 (Mock.table 3)) (Int 2)
           GC_COLLECT_BATCH BatchesQs _ Completed); [discriminate|].
  apply (drive_sound 10); vm_compute; reflexivity.
Defined.

Lemma pass_fetches_the_buffers_witness :
  exists tr,
    full_pass (queryset_iterator (Mock.legacy (Mock.table 4)) (Int 2)
                 GC_COLLECT_BATCH true) tr Completed /\
    filter_calls tr = [[1; 2]; [3; 4]; []] /\
    draws tr = 5%nat.
Proof.
  destruct (pass_fetches_the_buffers Records (Mock.legacy (Mock.table 4)) 2
              GC_COLLECT_BATCH ltac:(lia) eq_refl (mock_reliable _ _ _))
    as (tr & H1 & H2 & _ & _ & H5).
  exists tr. repeat split; assumption.
Defined.


Lemma rows_come_buffer_by_buffer_witness :
  exists tr,
    full_pass (queryset_iterator MockErrors.rows_gone (Int 2) GC_COLLECT_BATCH true)
      tr Completed /\
    filter_calls tr = [[1; 2]; [3; 4]; [5]] /\
    rows_yielded tr = [Mock.row_of 1 "1"; Mock.row_of 4 "4"; Mock.row_of 5 "5"].
Proof.
  assert (Hrel : reliable MockErrors.rows_gone) by by split.
  destruct (rows_come_buffer_by_buffer MockErrors.rows_gone 2 GC_COLLECT_BATCH
              ltac:(lia) eq_refl Hrel) as (tr & H1 & H2 & _).
  assert (H : full_pass
    (queryset_iterator MockErrors.rows_gone (Int 2) GC_COLLECT_BATCH true)
    [EvOpen; EvDraw; EvDraw; EvFilter [1; 2]; EvIterator [1; 2];
     EvYield (Row (Mock.row_of 1 "1")); EvCollect;
     EvDraw; EvDraw; EvFilter [3; 4]; EvIterator [3; 4];
     EvYield (Row (Mock.row_of 4 "4")); EvCollect;
     EvDraw; EvDraw; EvFilter [5]; EvIterator [5];
     EvYield (Row (Mock.row_of 5 "5")); EvCollect] Completed)
    by (apply (drive_sound 10); vm_compute; reflexivity).
  destruct (full_pass_det _ _ _ _ _ H1 H) as [-> _].
  eexists. split; [exact H|]. split; reflexivity.
Defined.

Lemma missing_method_witness :
  full_pass
    (queryset_iterator (Mock.python3 (Mock.table 3)) (Int 2) GC_COLLECT_BATCH true)
    [EvOpen; EvFilter []; EvIterator []] (Failed (AttributeError "next")).
Proof.
  apply (missing_method_ends_in_attribute_error Records
           (Mock.python3 (Mock.table 3)) 2 GC_COLLECT_BATCH
           ltac:(lia) eq_refl eq_refl).
Defined.

Lemma fetch_error_masks_enumeration_error_witness :
  exists tr,
    full_pass (queryset_iterator MockErrors.both_break (Int 2) GC_COLLECT_BATCH true)
      tr (Failed (SourceError "lost"%string)) /\
    draws tr = 2%nat.
Proof.
  destruct (fetch_error_masks_enumeration_error MockErrors.both_break 2
              GC_COLLECT_BATCH "boom"%string "lost"%string
              ltac:(lia) eq_refl eq_refl) as (tr & H1 & H2 & _).
  - intros i Hi. simpl in Hi. lia.
  - reflexivity.
  - exists tr. split; assumption.
Defined.

Lemma batch_entries_agree_witness :
  full_pass (queryset_iterator_qs (Mock.both (Mock.table 3)) (Int 2) GC_COLLECT_BATCH)
    [EvOpen; EvDraw; EvDraw; EvFilter [1; 2]; EvYield (Batch [1; 2]); EvCollect;
     EvDraw; EvDraw; EvFilter [3]; EvYield (Batch [3]); EvCollect] Completed.
Proof.
  apply (batch_entries_agree_on_both_spellings (Mock.both (Mock.table 3)) 2
           GC_COLLECT_BATCH _ Completed eq_refl eq_refl).
  apply (drive_sound 10); vm_compute; reflexivity.
Defined.

Lemma nothing_is_drawn_ahead_witness :
  exists tr,
    full_pass (queryset_iterator (Mock.legacy (Mock.table 4)) (Int 2)
                 GC_COLLECT_BATCH true) tr Completed /\
    forall tr1 x tr2, tr = tr1 ++ EvYield x :: tr2 ->
      (draws tr1 <= length (filter_calls tr1) * 2)%nat.
Proof.
  destruct (nothing_is_drawn_ahead Records (Mock.legacy (Mock.table 4)) 2
              GC_COLLECT_BATCH ltac:(lia) eq_refl (mock_reliable _ _ _))
    as (tr & H1 & H2).
  exists tr. split; [exact H1|].
  intros tr1 x tr2 Heq. destruct (H2 tr1 x tr2 Heq) as (buf & _ & _ & _ & _ & H).
  exact H.
Defined.

Lemma table4_distinct : NoDup (Mock.row_pk <$> Mock.table 4).
Proof. change (NoDup [1; 2; 3; 4]). compute_done. Defined.

Lemma collections_when_a_row_is_received_witness :
  exists tr,
    full_pass (queryset_iterator (Mock.legacy (Mock.table 4)) (Int 2)
                 GC_COLLECT_BATCH true) tr Completed /\
    (forall tr1 x tr2, tr = tr1 ++ EvYield x :: tr2 ->
       collects tr1 = (length (rows_yielded tr1) / 2)%nat) /\
    collects tr = 2%nat.
Proof.
  destruct (collections_when_a_row_is_received (Mock.legacy (Mock.table 4)) 2
              ltac:(lia) eq_refl (mock_reliable _ _ _)) as (tr & H1 & H2 & _ & H4).
  - intros l Hl. exact (mock_gives_a_row_per_key _ _ _ _ l table4_distinct Hl).
  - exists tr. repeat split; assumption.
Defined.

Lemma fetches_when_a_row_is_received_witness :
  exists tr,
    full_pass (queryset_iterator (Mock.legacy (Mock.table 4)) (Int 2)
                 GC_COLLECT_BATCH true) tr Completed /\
    forall tr1 x tr2, tr = tr1 ++ EvYield x :: tr2 ->
      length (filter_calls tr1) = S (length (rows_yielded tr1) / 2).
Proof.
  destruct (fetches_when_a_row_is_received (Mock.legacy (Mock.table 4)) 2
              GC_COLLECT_BATCH ltac:(lia) eq_refl (mock_reliable _ _ _))
    as (tr & H1 & H2).
  - intros l Hl. exact (mock_gives_a_row_per_key _ _ _ _ l table4_distinct Hl).
  - exists tr. split; [exact H1|].
    intros tr1 x tr2 Heq. by destruct (H2 tr1 x tr2 Heq).
Defined.

Lemma float_batchsize_witness :
  full_pass (queryset_iterator (Mock.legacy (Mock.table 3)) (Float (5 # 2))
               GC_COLLECT_BATCH false)
    [EvOpen; EvDraw; EvDraw; EvDraw; EvFilter [1; 2; 3];
     EvYield (Batch [1; 2; 3]); EvCollect; EvDraw; EvFilter [];
     EvYield (Batch [])] Completed.
Proof.
  apply (float_batchsize_acts_as_its_ceiling (Mock.legacy (Mock.table 3))
           (5 # 2) GC_COLLECT_BATCH false _ Completed eq_refl).
  apply (drive_sound 10); vm_compute; reflexivity.
Defined.

Lemma every_pass_ends_witness :
  exists tr fin,
    full_pass (queryset_iterator (Mock.legacy (Mock.table 3)) (Infinity false)
                 GC_COLLECT_BATCH true) tr fin.
Proof.
  apply (every_pass_ends Records (Mock.legacy (Mock.table 3)) (Infinity false)
           GC_COLLECT_BATCH).
  right. discriminate.
Defined.

Lemma nan_batchsize_never_ends_witness :
  failure (filter_pk_in (Mock.legacy (Mock.table 3)) []) = None /\
  ~ exists tr fin,
      full_pass (queryset_iterator (Mock.legacy (Mock.table 3)) NaN
                   GC_COLLECT_BATCH true) tr fin.
Proof.
  split; [reflexivity|]. intros (tr & fin & Hpass).
  destruct (nan_batchsize_never_ends (Mock.legacy (Mock.table 3))
              GC_COLLECT_BATCH true (or_intror eq_refl)) as [H _].
  exact (H tr fin Hpass).
Defined.

Lemma rows_follow_the_key_order_witness :
  exists tr,
    full_pass (queryset_iterator (Mock.legacy (Mock.table 4)) (Int 3)
                 GC_COLLECT_BATCH true) tr Completed /\
    rows_yielded tr = Mock.table 4.
Proof.
  apply (rows_follow_the_key_order
           (fun k => Mock.row_of k
                       (if k =? 1 then "1"%string
                        else if k =? 2 then "2"%string
                        else if k =? 3 then "3"%string else "4"%string))
           (Mock.legacy (Mock.table 4)) 3 GC_COLLECT_BATCH);
    [lia|reflexivity|apply mock_reliable|].
  intros buf Hbuf.
  change (buf ∈ [[1; 2; 3]; [4]]) in Hbuf.
  apply elem_of_cons in Hbuf as [->|Hbuf]; [reflexivity|].
  apply elem_of_cons in Hbuf as [->|Hbuf]; [reflexivity|].
  by apply elem_of_nil in Hbuf.
Defined.
